(** * rgb_emotions: the MQTT callback, the motion window and the LED renderer

    A shallow embedding of [main.py]: the subscription callback
    [mqtt_message_callback], the bounded deque [motiontimes], the renderer
    [update_leds] and the [while True] driver, followed by the properties
    of the written specification that they satisfy or break. *)

From Stdlib Require Import ZArith String Ascii List Lia Bool.
From stdpp Require Import gmap strings list sorting.

Local Open Scope string_scope.
Local Open Scope list_scope.
Local Open Scope Z_scope.

(** ** Configuration (main.py, lines 13-29) *)

Definition number_of_leds : nat := 90.
Definition mqtt_topic_base : string := "dinky/".
Definition channels : list string := ["motion"].

(** ** Exceptions and outcomes

    Python exceptions leave every mutation made before the [raise] in place,
    so a computation returns its outcome together with the world it
    reached.  [OutOfFuel] is not a Python outcome: it marks a [while] loop
    cut short by the model, and is shown never to happen. *)

Inductive exn : Type :=
| UnicodeError
| ValueError
| IndexError
| KeyError.

Inductive outcome (A : Type) : Type :=
| Returned (a : A)
| Raised (e : exn)
| OutOfFuel.

Arguments Returned {A} a.
Arguments Raised {A} e.
Arguments OutOfFuel {A}.

(** ** Builtins of the interpreter

    [bytes.decode('utf-8')], [str.strip] and [int] belong to the
    interpreter, not to the program.  The embedding is parametric in them;
    [None] stands for the exception the builtin raises ([UnicodeError] for
    [decode], [ValueError] for [int]).  A [str] is represented by its UTF-8
    bytes. *)

Class Runtime : Type := {
  decode_utf8 : string -> option string;
  str_strip : string -> string;
  py_int : string -> option Z
}.

(** [topic.startswith(mqtt_topic_base)] *)
Definition startswith (s p : string) : bool := String.prefix p s.

(** [topic[n:]].  The slice counts code points; it is only taken after
    [startswith] succeeded on an ASCII prefix, where code points and bytes
    coincide. *)
Fixpoint str_slice_from (n : nat) (s : string) : string :=
  match n, s with
  | O, _ => s
  | S _, EmptyString => EmptyString
  | S n', String _ s' => str_slice_from n' s'
  end.

(** ** ucollections.deque((), 60)

    A deque bounded to [maxlen] items, oldest at the head: once it is
    full, an item added at one end discards the item at the opposite end;
    [popleft] on an empty deque raises [IndexError]. *)

Definition deque_maxlen : nat := 60.

Definition deque_append (x : Z) (d : list Z) : list Z :=
  let d' := d ++ [x] in
  if (deque_maxlen <? length d')%nat then tail d' else d'.

Definition deque_appendleft (x : Z) (d : list Z) : list Z :=
  let d' := x :: d in
  if (deque_maxlen <? length d')%nat then removelast d' else d'.

Definition deque_popleft (d : list Z) : option (Z * list Z) :=
  match d with
  | [] => None
  | h :: t => Some (h, t)
  end.

(** ** neopixel.NeoPixel

    The driver object: the colours assigned with [np[x] = v] and the frames
    sent to the strip by [np.write()].  An index outside the strip raises
    [IndexError].  The model keeps each tuple as the program assigns it;
    how the driver, created with [bpp=3], packs a tuple into bytes is not
    part of the program. *)

Definition color : Type := (Z * Z * Z * Z)%type.

Record NeoPixel : Type := mkNeoPixel {
  np_buf : list color;
  np_frames : list (list color)
}.

Definition np_setitem (x : nat) (v : color) (p : NeoPixel) : option NeoPixel :=
  if (x <? length (np_buf p))%nat
  then Some (mkNeoPixel (<[x := v]> (np_buf p)) (np_frames p))
  else None.

Definition np_write (p : NeoPixel) : NeoPixel :=
  mkNeoPixel (np_buf p) (np_frames p ++ [np_buf p]).

(** ** The process-wide variables *)

Record world : Type := mkWorld {
  state : gmap string Z;         (* the dict [state] *)
  motiontimes : list Z;          (* the deque [motiontimes], oldest first *)
  np : NeoPixel;                 (* the strip driver [np] *)
  ticks_read : nat;              (* calls of [utime.ticks_ms()] made so far *)
  slept_ms : Z                   (* total of [time.sleep_ms] *)
}.

Definition world0 : world :=
  mkWorld {["motion" := 0]} []
          (mkNeoPixel (repeat (0, 0, 0, 0) number_of_leds) []) 0 0.

(** ** The state-and-exception monad *)

Definition M (A : Type) : Type := world -> outcome A * world.

Definition ret {A} (a : A) : M A := fun w => (Returned a, w).

Definition raise {A} (e : exn) : M A := fun w => (Raised e, w).

Definition bind {A B} (c : M A) (k : A -> M B) : M B :=
  fun w =>
    match c w with
    | (Returned a, w') => k a w'
    | (Raised e, w') => (Raised e, w')
    | (OutOfFuel, w') => (OutOfFuel, w')
    end.

Declare Scope prog_scope.
Delimit Scope prog_scope with prog.
Notation "x <- c ;; k" := (bind c (fun x => k))
  (at level 100, c at next level, right associativity) : prog_scope.
Notation "c ;; k" := (bind c (fun _ => k))
  (at level 100, right associativity) : prog_scope.

(** A builtin that may raise. *)
Definition or_raise {A} (e : exn) (o : option A) : M A :=
  match o with
  | Some a => ret a
  | None => raise e
  end.

Section Program.

Context `{Runtime}.

(** The reading of the millisecond counter at its k-th call. *)
Variable ticks : nat -> Z.

Local Open Scope prog_scope.

(** [utime.ticks_ms()] *)
Definition ticks_ms : M Z := fun w =>
  (Returned (ticks (ticks_read w)),
   mkWorld (state w) (motiontimes w) (np w) (S (ticks_read w)) (slept_ms w)).

(** [state[channel] = v] *)
Definition state_setitem (channel : string) (v : Z) : M unit := fun w =>
  (Returned tt,
   mkWorld (<[channel := v]> (state w)) (motiontimes w) (np w)
           (ticks_read w) (slept_ms w)).

(** [state[channel]], [KeyError] on a missing key *)
Definition state_getitem (channel : string) : M Z := fun w =>
  or_raise KeyError (state w !! channel) w.

Definition set_motiontimes (d : list Z) (w : world) : world :=
  mkWorld (state w) d (np w) (ticks_read w) (slept_ms w).

(** [motiontimes.append(x)] *)
Definition motiontimes_append (x : Z) : M unit := fun w =>
  (Returned tt, set_motiontimes (deque_append x (motiontimes w)) w).

(** [motiontimes.appendleft(x)] *)
Definition motiontimes_appendleft (x : Z) : M unit := fun w =>
  (Returned tt, set_motiontimes (deque_appendleft x (motiontimes w)) w).

(** [motiontimes.popleft()] *)
Definition motiontimes_popleft : M Z := fun w =>
  match deque_popleft (motiontimes w) with
  | Some (h, t) => (Returned h, set_motiontimes t w)
  | None => (Raised IndexError, w)
  end.

Definition set_np (p : NeoPixel) (w : world) : world :=
  mkWorld (state w) (motiontimes w) p (ticks_read w) (slept_ms w).

(** [np[x] = v] *)
Definition np_assign (x : nat) (v : color) : M unit := fun w =>
  match np_setitem x v (np w) with
  | Some p => (Returned tt, set_np p w)
  | None => (Raised IndexError, w)
  end.

(** [np.write()] *)
Definition np_commit : M unit := fun w =>
  (Returned tt, set_np (np_write (np w)) w).

(** [time.sleep_ms(ms)] *)
Definition sleep_ms (ms : Z) : M unit := fun w =>
  (Returned tt,
   mkWorld (state w) (motiontimes w) (np w) (ticks_read w) (slept_ms w + ms)).

(** *** The prune loop (main.py, lines 61-66)

<<
    checking = True
    while checking:
        currententry = motiontimes.popleft()
        if utime.ticks_ms() - currententry < 60000:
            motiontimes.appendleft(currententry)
            checking = False
>>
    The subtraction is Python's, on unbounded integers. *)

Fixpoint prune_loop (fuel : nat) : M unit :=
  match fuel with
  | O => fun w => (OutOfFuel, w)
  | S fuel' =>
      currententry <- motiontimes_popleft ;;
      now <- ticks_ms ;;
      if now - currententry <? 60000
      then motiontimes_appendleft currententry
      else prune_loop fuel'
  end.

(** Every turn of the loop that does not leave it removes one entry, so one
    turn more than the number of entries is always enough. *)
Definition prune : M unit := fun w =>
  prune_loop (S (length (motiontimes w))) w.

(** *** The callback (main.py, lines 40-66)

    [print] writes to the console only; what the model keeps of each
    [print] is the evaluation of its arguments, [int(msg)] among them. *)

Definition mqtt_message_callback (topic msg : string) : M unit :=
  topic <- or_raise UnicodeError (decode_utf8 topic) ;;
  msg <- or_raise UnicodeError (decode_utf8 msg) ;;
  let msg := str_strip msg in
  if startswith topic mqtt_topic_base then
    let channel := str_slice_from (String.length mqtt_topic_base) topic in
    _ <- or_raise ValueError (py_int msg) ;;     (* print("msg: ", int(msg)) *)
    if bool_decide (channel ∈ channels) then
      v <- or_raise ValueError (py_int msg) ;;
      state_setitem channel v ;;
      _ <- or_raise ValueError (py_int msg) ;;   (* print("motion", int(msg)) *)
      t <- ticks_ms ;;
      motiontimes_append t ;;
      prune
    else ret tt
  else ret tt.

(** *** The renderer (main.py, lines 69-78) *)

Fixpoint for_range (xs : list nat) (body : nat -> M unit) : M unit :=
  match xs with
  | [] => ret tt
  | x :: xs' => body x ;; for_range xs' body
  end.

(** The body of the [for] loop, lines 73-76. *)
Definition update_led (x : nat) : M unit :=
  motion <- state_getitem "motion" ;;
  if motion =? 1
  then np_assign x (255, 0, 0, 0)
  else np_assign x (0, 255, 0, 0).

Definition update_leds : M unit :=
  for_range (seq 0 number_of_leds) update_led ;;
  np_commit.

(** *** The driver (main.py, lines 157-160)

    [client.check_msg()] hands at most one pending message to the callback
    and handles no exception of the callback.  The endless loop is run for
    as many turns as there are poll results in [polls]; an exception ends
    it, as no turn has a handler. *)

Definition check_msg (pending : option (string * string)) : M unit :=
  match pending with
  | Some (topic, msg) => mqtt_message_callback topic msg
  | None => ret tt
  end.

Fixpoint main_loop (polls : list (option (string * string))) : M unit :=
  match polls with
  | [] => ret tt
  | pending :: polls' =>
      check_msg pending ;;
      update_leds ;;
      sleep_ms 25 ;;
      main_loop polls'
  end.

(** *** Messages the callback acts on

    A message is accepted when both parts decode, the topic starts with
    the base prefix, the rest of the topic is a known channel and the
    stripped payload reads as an integer; [accepted] then gives the channel
    and the integer. *)

Definition accepted (topic msg : string) : option (string * Z) :=
  match decode_utf8 topic, decode_utf8 msg with
  | Some t, Some m =>
      let channel := str_slice_from (String.length mqtt_topic_base) t in
      if startswith t mqtt_topic_base && bool_decide (channel ∈ channels)
      then option_map (pair channel) (py_int (str_strip m))
      else None
  | _, _ => None
  end.

Definition accepted_all (msgs : list (string * string)) : list (string * Z) :=
  omap (fun tm => accepted tm.1 tm.2) msgs.

(** A run of the callback over messages in arrival order.  A message is
    dispatched when the callback is entered with it; the run ends with the
    first one that does not return.  The result counts the messages
    dispatched. *)
Fixpoint dispatch_all (msgs : list (string * string)) (w : world)
  : nat * (outcome unit * world) :=
  match msgs with
  | [] => (O, (Returned tt, w))
  | (topic, msg) :: msgs' =>
      match mqtt_message_callback topic msg w with
      | (Returned _, w') =>
          let r := dispatch_all msgs' w' in (S r.1, r.2)
      | r => (1%nat, r)
      end
  end.

(** What the prune loop computes on a window [d] when the next reading of
    the counter is the [k]-th: the window left and the next reading, or
    [None] when every entry was removed and [popleft] met an empty deque. *)
Fixpoint pruned (k : nat) (d : list Z) : option (list Z * nat) :=
  match d with
  | [] => None
  | e :: d' =>
      if ticks k - e <? 60000 then Some (e :: d', S k) else pruned (S k) d'
  end.

End Program.

(** The value most recently given to [channel] in a list of (channel,
    value) pairs in arrival order. *)
Fixpoint latest (channel : string) (vs : list (string * Z)) : option Z :=
  match vs with
  | [] => None
  | (c, v) :: vs' =>
      match latest channel vs' with
      | Some v' => Some v'
      | None => if decide (channel = c) then Some v else None
      end
  end.

(** The invariant of the process-wide variables. *)
Definition wf (w : world) : Prop :=
  is_Some (state w !! "motion") /\
  (length (motiontimes w) <= deque_maxlen)%nat /\
  length (np_buf (np w)) = number_of_leds.

(** A counter that never steps back: no wrap during the run. *)
Definition monotone (ticks : nat -> Z) : Prop :=
  forall i j : nat, (i <= j)%nat -> ticks i <= ticks j.

(** The window is in arrival order and holds no timestamp later than the
    next reading of the counter. *)
Definition window_in_order (ticks : nat -> Z) (w : world) : Prop :=
  StronglySorted Z.le (motiontimes w) /\
  Forall (fun e => e <= ticks (ticks_read w)) (motiontimes w).

(** *** The wrapping counter

    [utime.ticks_ms()] counts modulo [TICKS_PERIOD] (2^30 on the ESP32
    port); [ticks_diff] is the signed difference the platform defines for
    its readings. *)

Definition TICKS_PERIOD : Z := 2 ^ 30.

Definition ticks_diff (t1 t2 : Z) : Z :=
  (t1 - t2 + TICKS_PERIOD / 2) mod TICKS_PERIOD - TICKS_PERIOD / 2.

(** A counter whose first readings are [l] and which then stays at [d]. *)
Definition readings (l : list Z) (d : Z) : nat -> Z := fun k => nth k l d.

(** The colour the renderer gives every pixel for a value of
    [state["motion"]]. *)
Definition motion_color (motion : Z) : color :=
  if motion =? 1 then (255, 0, 0, 0) else (0, 255, 0, 0).

(** ** The start-up sequence (main.py, lines 83-149)

    What the module does before it enters the main loop: indicator
    colours on the strip, the wait for the wireless network and the
    attempts to reach the broker.  Calls into the network and MQTT objects
    are kept where the program branches on them: [wifi.isconnected()] and
    a [client.connect()] that raises [OSError]. *)

(** [fill_all_leds(r, g, b, w)], lines 83-86 *)
Definition fill_all_leds (r g b w : Z) : M unit :=
  (for_range (seq 0 number_of_leds) (fun x => np_assign x (r, g, b, w)) ;;
   np_commit)%prog.

(** [time.sleep(s)], the duration written in milliseconds (1.5 s is 1500). *)
Definition time_sleep (ms : Z) : M unit := sleep_ms ms.

Section Boot.

(** The answer of the k-th call of [wifi.isconnected()]. *)
Variable wifi_isconnected : nat -> bool.

(** Whether the k-th call of [client.connect()] raises [OSError]; it
    returns otherwise. *)
Variable connect_fails : nat -> bool.

Local Open Scope prog_scope.

(** Lines 105-106, [k] calls of [isconnected] having been made:
<<
    while not wifi.isconnected():
        time.sleep(0.1)
>> *)
Fixpoint wait_for_wifi (fuel : nat) (k : nat) : M unit :=
  match fuel with
  | O => fun w => (OutOfFuel, w)
  | S fuel' =>
      if wifi_isconnected k then ret tt
      else time_sleep 100 ;; wait_for_wifi fuel' (S k)
  end.

(** Lines 131-137, over the values [i] still to come:
<<
    for i in range(100):
        try:
            client.connect()
            break
        except OSError as e:
            print(e)
            fill_all_leds(255, 0, 0, 0)
>> *)
Fixpoint connect_attempts (attempts : list nat) : M unit :=
  match attempts with
  | [] => ret tt
  | i :: attempts' =>
      if connect_fails i
      then fill_all_leds 255 0 0 0 ;; connect_attempts attempts'
      else ret tt
  end.

Definition connect_to_broker : M unit := connect_attempts (seq 0 100).

(** Lines 141-145 *)
Definition blink : M unit :=
  for_range (seq 0 3) (fun _ =>
    fill_all_leds 0 0 0 0 ;;
    time_sleep 300 ;;
    fill_all_leds 0 0 0 255 ;;
    time_sleep 300).

(** Lines 90-149 in order. *)
Definition boot (fuel : nat) : M unit :=
  fill_all_leds 0 0 0 0 ;;
  time_sleep 1500 ;;
  fill_all_leds 0 0 255 0 ;;
  wait_for_wifi fuel 0 ;;
  fill_all_leds 0 255 0 0 ;;
  time_sleep 1000 ;;
  fill_all_leds 255 150 0 0 ;;
  time_sleep 2000 ;;
  connect_to_broker ;;
  blink ;;
  fill_all_leds 0 0 0 0.

End Boot.

(** The frames that show the colours [cs], one after the other. *)
Definition frames_of (cs : list color) : list (list color) :=
  map (fun c => repeat c number_of_leds) cs.

(** The variables as the module creates them, the strip holding [buf]. *)
Definition power_on (buf : list color) : world :=
  mkWorld {["motion" := 0]} [] (mkNeoPixel buf []) 0 0.

(** A window without its leading entries that are 60000 ms old or more at
    the reading [now]. *)
Fixpoint drop_stale (now : Z) (d : list Z) : list Z :=
  match d with
  | [] => []
  | e :: d' => if now - e <? 60000 then d else drop_stale now d'
  end.

(** Every entry of the window is less than 60000 ms behind the last
    reading of the counter. *)
Definition window_recent (ticks : nat -> Z) (w : world) : Prop :=
  Forall (fun e => ticks (pred (ticks_read w)) - e < 60000) (motiontimes w).

(** The world after the strip was filled with the colour [c] and written
    once, and after it was so with each colour of [cs] in turn. *)
Definition show (c : color) (w : world) : world :=
  set_np (mkNeoPixel (repeat c number_of_leds)
                     (np_frames (np w) ++ [repeat c number_of_leds])) w.

Definition shown (cs : list color) (w : world) : world :=
  fold_left (fun w' c => show c w') cs w.

(** The world after a sleep of [ms] milliseconds. *)
Definition asleep (ms : Z) (w : world) : world :=
  mkWorld (state w) (motiontimes w) (np w) (ticks_read w) (slept_ms w + ms).


(** ** A concrete runtime

    Used to run the program on examples: [decode] checks that the bytes
    are well-formed UTF-8, [strip] removes ASCII white space at both ends,
    [int] reads an optionally signed decimal literal. *)

Fixpoint utf8_check (need : nat) (s : string) : bool :=
  match s with
  | EmptyString => (need =? 0)%nat
  | String c s' =>
      let b := N_of_ascii c in
      match need with
      | S need' =>
          if ((128 <=? b) && (b <? 192))%N then utf8_check need' s' else false
      | O =>
          if (b <? 128)%N then utf8_check 0 s'
          else if (b <? 192)%N then false
          else if (b <? 224)%N then utf8_check 1 s'
          else if (b <? 240)%N then utf8_check 2 s'
          else if (b <? 248)%N then utf8_check 3 s'
          else false
      end
  end.

Definition is_space (c : ascii) : bool :=
  let b := N_of_ascii c in ((b =? 32) || ((9 <=? b) && (b <=? 13)))%N.

Fixpoint lstrip (s : string) : string :=
  match s with
  | EmptyString => EmptyString
  | String c s' => if is_space c then lstrip s' else s
  end.

Fixpoint rstrip (s : string) : string :=
  match s with
  | EmptyString => EmptyString
  | String c s' =>
      match rstrip s' with
      | EmptyString => if is_space c then EmptyString else String c EmptyString
      | r => String c r
      end
  end.

Definition digit_value (c : ascii) : option Z :=
  let b := Z.of_N (N_of_ascii c) in
  if (48 <=? b) && (b <=? 57) then Some (b - 48) else None.

Fixpoint digits_value (acc : Z) (s : string) : option Z :=
  match s with
  | EmptyString => Some acc
  | String c s' =>
      match digit_value c with
      | Some d => digits_value (10 * acc + d) s'
      | None => None
      end
  end.

Definition unsigned_literal (s : string) : option Z :=
  match s with
  | EmptyString => None
  | _ => digits_value 0 s
  end.

Definition decimal_literal (s : string) : option Z :=
  match rstrip (lstrip s) with
  | String c r =>
      if Ascii.eqb c "-" then option_map Z.opp (unsigned_literal r)
      else if Ascii.eqb c "+" then unsigned_literal r
      else unsigned_literal (String c r)
  | EmptyString => None
  end.

Definition ascii_runtime : Runtime := {|
  decode_utf8 := fun b => if utf8_check 0 b then Some b else None;
  str_strip := fun s => rstrip (lstrip s);
  py_int := decimal_literal
|}.

(** ** Concrete runs *)

(** A steady counter: every reading is [t]. *)
Definition steady (t : Z) : nat -> Z := fun _ => t.

(** A full window: 60 timestamps, one per millisecond from 1000 on. *)
Definition full_window : list Z := map (fun i => 1000 + Z.of_nat i) (seq 0 60).

Definition world_full : world :=
  mkWorld {["motion" := 0]} full_window (np world0) 60 0.

(** A world that differs from [world0] in everything but [state]. *)
Definition world_other : world :=
  mkWorld {["motion" := 0]} [5; 6]
          (mkNeoPixel (repeat (9, 9, 9, 9) number_of_leds) [[]]) 3 25.

(** The counter wraps between the first message and the second, which
    arrives 8 ms later; the third arrives about 70 s after that.  Each
    message reads the counter twice: for [append], then in the loop. *)
Definition ticks_across_wrap : nat -> Z :=
  readings [2 ^ 30 - 5; 2 ^ 30 - 5; 3; 3; 70000; 70000] 70000.

Definition three_motions : list (string * string) :=
  [("dinky/motion", "1"); ("dinky/motion", "1"); ("dinky/motion", "1")].

(** One message 10 ms before the counter wraps, the next one 70010 ms
    later. *)
Definition ticks_wrapped_once : nat -> Z :=
  readings [2 ^ 30 - 10; 2 ^ 30 - 10; 70000; 70000] 70000.

Definition two_motions : list (string * string) :=
  [("dinky/motion", "1"); ("dinky/motion", "0")].


(** The network answers at the third call; the broker at the third
    attempt. *)
Definition wifi_third_call : nat -> bool := fun k => (2 <=? k)%nat.
Definition broker_third_attempt : nat -> bool := fun k => (k <? 2)%nat.

(** A window whose two oldest entries are stale at the reading 70000. *)
Definition world_stale : world :=
  mkWorld {["motion" := 0]} [1000; 2000; 30000] (np world0) 6 0.

(** A network that never answers, a broker that is never reached, and a
    strip holding some colour when the module starts. *)
Definition no_network : nat -> bool := fun _ => false.
Definition broker_down : nat -> bool := fun _ => true.
Definition strip_at_start : list color := repeat (7, 7, 7, 7) number_of_leds.

(** ** Examples *)

Example decimal_literal_examples :
  decimal_literal "1" = Some 1 /\ decimal_literal " -42 " = Some (-42) /\
  decimal_literal "not-a-number" = None /\ decimal_literal "" = None.
Proof. repeat split; reflexivity. Qed.

(** The end-to-end scenario: "1" on dinky/motion turns the strip red, "0"
    turns it green; one frame per turn of the loop, 25 ms apart. *)
Example motion_on_then_off :
  @main_loop ascii_runtime (steady 1000)
    [Some ("dinky/motion", "1"); Some ("dinky/motion", "0")] world0
  = (Returned tt,
     mkWorld {["motion" := 0]} [1000; 1000]
             (mkNeoPixel (repeat (0, 255, 0, 0) 90)
                         [repeat (255, 0, 0, 0) 90; repeat (0, 255, 0, 0) 90])
             4 50).
Proof. vm_compute. reflexivity. Qed.

(** A topic outside the base prefix is a silent no-op. *)
Example other_topic_ignored :
  @mqtt_message_callback ascii_runtime (steady 1000) "other/topic" "1" world0
  = (Returned tt, world0).
Proof. vm_compute. reflexivity. Qed.

Example callback_motion_1 :
  @mqtt_message_callback ascii_runtime (fun _ => 1000) "dinky/motion" "1" world0
  = (Returned tt,
     mkWorld {["motion" := 1]} [1000] (np world0) 2 0).
Proof. vm_compute. reflexivity. Qed.

(** * Properties *)

(** ** The bounded deque *)

Lemma deque_append_room x d :
  (length d < deque_maxlen)%nat -> deque_append x d = d ++ [x].
Proof.
  intros Hlen. unfold deque_append. cbv zeta.
  destruct (Nat.ltb_spec deque_maxlen (length (d ++ [x]))) as [Hlt | Hge];
    [rewrite length_app in Hlt; simpl in Hlt; lia | reflexivity].
Qed.

Lemma deque_append_full x d :
  length d = deque_maxlen -> deque_append x d = tail d ++ [x].
Proof.
  intros Hlen. unfold deque_append. cbv zeta.
  destruct (Nat.ltb_spec deque_maxlen (length (d ++ [x]))) as [Hlt | Hge];
    [| rewrite length_app in Hge; simpl in Hge; lia].
  destruct d; [discriminate Hlen | reflexivity].
Qed.

Lemma deque_append_length x d :
  (length d <= deque_maxlen)%nat ->
  (length (deque_append x d) <= deque_maxlen)%nat.
Proof.
  intros Hlen. destruct (decide (length d = deque_maxlen)) as [Hfull | Hroom].
  - rewrite deque_append_full by assumption.
    rewrite length_app. unfold deque_maxlen in *.
    destruct d; simpl in *; lia.
  - rewrite deque_append_room by lia. rewrite length_app. simpl. lia.
Qed.

Lemma deque_append_nonempty x d : deque_append x d <> [].
Proof.
  unfold deque_append. cbv zeta.
  destruct (deque_maxlen <? length (d ++ [x]))%nat eqn:E.
  - apply Nat.ltb_lt in E. rewrite length_app in E. simpl in E.
    destruct d as [| a [| b d]]; simpl in *;
      [unfold deque_maxlen in E; lia | unfold deque_maxlen in E; lia
      | discriminate].
  - destruct d; discriminate.
Qed.

Lemma deque_append_last x d :
  (length d <= deque_maxlen)%nat -> last (deque_append x d) = Some x.
Proof.
  intros Hlen. destruct (decide (length d = deque_maxlen)) as [Hfull | Hroom].
  - rewrite deque_append_full by assumption. apply last_snoc.
  - rewrite deque_append_room by lia. apply last_snoc.
Qed.

Lemma deque_appendleft_room x d :
  (length d < deque_maxlen)%nat -> deque_appendleft x d = x :: d.
Proof.
  intros Hlen. unfold deque_appendleft. cbv zeta.
  destruct (Nat.ltb_spec deque_maxlen (length (x :: d))) as [Hlt | Hge];
    [simpl in Hlt; lia | reflexivity].
Qed.

Lemma deque_appendleft_nonempty x d : deque_appendleft x d <> [].
Proof.
  unfold deque_appendleft. cbv zeta.
  destruct (deque_maxlen <? length (x :: d))%nat eqn:E; [| discriminate].
  apply Nat.ltb_lt in E.
  destruct d as [| a d]; [unfold deque_maxlen in E; simpl in E; lia |].
  simpl. discriminate.
Qed.

(** ** The renderer *)

Lemma update_led_assigns x motion w :
  state w !! "motion" = Some motion ->
  update_led x w = np_assign x (motion_color motion) w.
Proof.
  intros Hm. unfold update_led, bind, state_getitem. rewrite Hm.
  unfold or_raise, ret, motion_color. destruct (motion =? 1); reflexivity.
Qed.

(** The loop overwrites the pixels from [length pre] on, one per turn. *)
Lemma for_range_fills motion st d fr k sl (suf pre : list color) :
  st !! "motion" = Some motion ->
  for_range (seq (length pre) (length suf)) update_led
            (mkWorld st d (mkNeoPixel (pre ++ suf) fr) k sl) =
  (Returned tt,
   mkWorld st d
           (mkNeoPixel (pre ++ repeat (motion_color motion) (length suf)) fr)
           k sl).
Proof.
  intros Hm. revert pre. induction suf as [| a suf IH]; intros pre.
  - reflexivity.
  - cbn [length seq for_range]. unfold bind at 1.
    rewrite (update_led_assigns _ motion) by exact Hm.
    unfold np_assign, np_setitem. cbn [np np_buf np_frames].
    assert (Hin : (length pre <? length (pre ++ a :: suf))%nat = true).
    { apply Nat.ltb_lt. rewrite length_app. simpl. lia. }
    rewrite Hin.
    replace (<[length pre := motion_color motion]> (pre ++ a :: suf))
      with ((pre ++ [motion_color motion]) ++ suf).
    2:{ rewrite <- (Nat.add_0_r (length pre)) at 1.
        rewrite insert_app_r. rewrite <- app_assoc. reflexivity. }
    unfold set_np. cbn [state motiontimes ticks_read slept_ms].
    specialize (IH (pre ++ [motion_color motion])).
    rewrite length_app in IH. simpl length in IH.
    rewrite Nat.add_1_r in IH. rewrite IH.
    rewrite <- app_assoc. reflexivity.
Qed.

(** What a call of [update_leds] leaves behind. *)
Lemma update_leds_result (w : world) (motion : Z) :
  state w !! "motion" = Some motion ->
  length (np_buf (np w)) = number_of_leds ->
  update_leds w =
  (Returned tt,
   set_np (mkNeoPixel
             (repeat (motion_color motion) number_of_leds)
             (np_frames (np w) ++
              [repeat (motion_color motion) number_of_leds])) w).
Proof.
  intros Hm Hlen. destruct w as [st d [buf fr] k sl]. simpl in Hm, Hlen.
  unfold update_leds, bind.
  pose proof (for_range_fills motion st d fr k sl buf [] Hm) as Hfill.
  simpl in Hfill. rewrite Hlen in Hfill. rewrite Hfill.
  reflexivity.
Qed.

(** C2. For every channel state holding a value for "motion", rendering
    returns normally, overwrites each of the 90 pixels with (255,0,0,0)
    when the value is 1 and with (0,255,0,0) for any other value, and then
    sends the buffer to the strip exactly once: one frame, the whole
    buffer, is added to the frames written. *)
Theorem update_leds_overwrites_all_pixels (w : world) (motion : Z) :
  state w !! "motion" = Some motion ->
  length (np_buf (np w)) = number_of_leds ->
  exists w',
    update_leds w = (Returned tt, w') /\
    length (np_buf (np w')) = 90%nat /\
    (forall x pixel, np_buf (np w') !! x = Some pixel ->
       pixel = if motion =? 1 then (255, 0, 0, 0) else (0, 255, 0, 0)) /\
    np_frames (np w') = np_frames (np w) ++ [np_buf (np w')] /\
    state w' = state w /\ motiontimes w' = motiontimes w.
Proof.
  intros Hm Hlen. eexists. split; [apply (update_leds_result w motion Hm Hlen) |].
  cbn [set_np np np_buf np_frames state motiontimes].
  split; [apply repeat_length |].
  split; [| repeat split].
  intros x pixel Hx. apply list_elem_of_lookup_2 in Hx.
  apply list_elem_of_In, repeat_spec in Hx. exact Hx.
Qed.

(** C9. Rendering is a function of the channel state alone: on two worlds
    with the same [state] (holding a value for "motion") and a strip of 90
    pixels, whatever their windows, counters and earlier pixel contents,
    it ends the same way, leaves the same pixel buffer and sends the same
    frame. *)
Theorem update_leds_depends_on_state_only (w1 w2 : world) :
  state w1 = state w2 ->
  is_Some (state w1 !! "motion") ->
  length (np_buf (np w1)) = number_of_leds ->
  length (np_buf (np w2)) = number_of_leds ->
  (update_leds w1).1 = (update_leds w2).1 /\
  np_buf (np (update_leds w1).2) = np_buf (np (update_leds w2).2) /\
  last (np_frames (np (update_leds w1).2)) =
  last (np_frames (np (update_leds w2).2)) /\
  motiontimes (update_leds w1).2 = motiontimes w1.
Proof.
  intros Hst [motion Hm] Hlen1 Hlen2.
  assert (Hm2 : state w2 !! "motion" = Some motion) by (rewrite <- Hst; exact Hm).
  rewrite (update_leds_result w1 motion Hm Hlen1).
  rewrite (update_leds_result w2 motion Hm2 Hlen2).
  cbn [fst snd set_np np np_buf np_frames motiontimes].
  rewrite !last_snoc. auto.
Qed.

Section Properties.

Context `{Runtime}.
Variable ticks : nat -> Z.

(** ** The prune loop *)

(** The loop never needs more turns than the window has entries, plus one:
    the model's fuel is never what stops it. *)
Lemma prune_loop_terminates fuel w :
  (length (motiontimes w) < fuel)%nat ->
  (prune_loop ticks fuel w).1 <> OutOfFuel.
Proof.
  revert w. induction fuel as [| fuel IH]; intros w Hlen; [lia |].
  destruct w as [st d p k sl]. simpl in Hlen.
  destruct d as [| e d]; [discriminate |].
  cbn. destruct (ticks k - e <? 60000); [discriminate |].
  apply IH. simpl in *. lia.
Qed.

Lemma prune_terminates w : (prune ticks w).1 <> OutOfFuel.
Proof. unfold prune. apply prune_loop_terminates. lia. Qed.

(** On a window within the capacity the loop computes [pruned]. *)
Lemma prune_loop_spec fuel w :
  (length (motiontimes w) < fuel)%nat ->
  (length (motiontimes w) <= deque_maxlen)%nat ->
  prune_loop ticks fuel w =
  match pruned ticks (ticks_read w) (motiontimes w) with
  | Some (d', k') =>
      (Returned tt, mkWorld (state w) d' (np w) k' (slept_ms w))
  | None =>
      (Raised IndexError,
       mkWorld (state w) [] (np w)
               (ticks_read w + length (motiontimes w))%nat (slept_ms w))
  end.
Proof.
  revert w. induction fuel as [| fuel IH]; intros w Hfuel Hcap; [lia |].
  destruct w as [st d p k sl]. simpl in Hfuel, Hcap.
  destruct d as [| e d].
  - cbn. rewrite Nat.add_0_r. reflexivity.
  - cbn. destruct (ticks k - e <? 60000) eqn:Hyoung.
    + cbn. unfold motiontimes_appendleft, set_motiontimes. cbn.
      rewrite deque_appendleft_room by (simpl in Hcap; lia). reflexivity.
    + rewrite IH by (simpl in *; lia). cbn.
      destruct (pruned ticks (S k) d) as [[d' k'] |]; [reflexivity |].
      do 3 f_equal. simpl. lia.
Qed.

Lemma prune_spec w :
  (length (motiontimes w) <= deque_maxlen)%nat ->
  prune ticks w =
  match pruned ticks (ticks_read w) (motiontimes w) with
  | Some (d', k') =>
      (Returned tt, mkWorld (state w) d' (np w) k' (slept_ms w))
  | None =>
      (Raised IndexError,
       mkWorld (state w) [] (np w)
               (ticks_read w + length (motiontimes w))%nat (slept_ms w))
  end.
Proof. intros Hcap. unfold prune. apply prune_loop_spec; [lia | assumption]. Qed.

(** The loop touches the window and the counter only. *)
Lemma prune_loop_frame fuel w :
  let w' := (prune_loop ticks fuel w).2 in
  state w' = state w /\ np w' = np w /\ slept_ms w' = slept_ms w.
Proof.
  revert w. induction fuel as [| fuel IH]; intros w; [cbn; auto |].
  destruct w as [st d p k sl]. destruct d as [| e d]; [cbn; auto |].
  cbn. destruct (ticks k - e <? 60000); [cbn; auto |].
  apply (IH (mkWorld st d p (S k) sl)).
Qed.

(** ** The callback on an accepted message *)

Lemma callback_accepted topic msg c v w :
  accepted topic msg = Some (c, v) ->
  mqtt_message_callback ticks topic msg w =
  prune ticks
    (mkWorld (<[c := v]> (state w))
             (deque_append (ticks (ticks_read w)) (motiontimes w))
             (np w) (S (ticks_read w)) (slept_ms w)).
Proof.
  unfold accepted, mqtt_message_callback. intros Hacc.
  destruct (decode_utf8 topic) as [t |]; [| discriminate].
  destruct (decode_utf8 msg) as [m |]; [| discriminate].
  destruct (startswith t mqtt_topic_base) eqn:Hpre; [| discriminate].
  destruct (bool_decide _) eqn:Hchan; [| discriminate].
  destruct (py_int (str_strip m)) as [n |] eqn:Hint; [| discriminate].
  simpl in Hacc. injection Hacc as <- <-.
  unfold bind at 1. unfold or_raise at 1, ret at 1.
  unfold bind at 1. unfold or_raise at 1, ret at 1.
  cbv zeta. rewrite Hpre. unfold bind at 1. rewrite Hint.
  unfold or_raise at 1, ret at 1. rewrite Hchan.
  reflexivity.
Qed.

Lemma callback_accepted_state topic msg c v w :
  accepted topic msg = Some (c, v) ->
  state (mqtt_message_callback ticks topic msg w).2 = <[c := v]> (state w).
Proof.
  intros Hacc. rewrite (callback_accepted _ _ _ _ _ Hacc). unfold prune.
  match goal with |- context [prune_loop ticks ?f ?w0] =>
    destruct (prune_loop_frame f w0) as (Hst & _ & _) end.
  exact Hst.
Qed.

(** ** Channel state after a run of accepted messages *)

Lemma accepted_all_cons topic msg c v msgs :
  accepted topic msg = Some (c, v) ->
  accepted_all ((topic, msg) :: msgs) = (c, v) :: accepted_all msgs.
Proof. intros Hacc. unfold accepted_all. simpl. rewrite Hacc. reflexivity. Qed.

Lemma lookup_after_assignment (st : gmap string Z) c v channel (later : option Z) :
  match (match later with
         | Some v' => Some v'
         | None => if decide (channel = c) then Some v else None
         end) with
  | Some u => Some u
  | None => st !! channel
  end =
  match later with
  | Some v' => Some v'
  | None => <[c := v]> st !! channel
  end.
Proof.
  destruct later as [v' |]; [reflexivity |].
  destruct (decide (channel = c)) as [-> | Hne].
  - rewrite lookup_insert_eq. reflexivity.
  - rewrite lookup_insert_ne by congruence. reflexivity.
Qed.

(** C1. After any run of accepted messages (topic under the base prefix,
    known channel, payload an integer), the value stored in [state] for a
    channel is the integer of the last message dispatched for that
    channel, and the value it had before the run when no message was
    dispatched for it.  The messages dispatched are the first [r.1] of the
    run: the callback was entered with each of them. *)
Theorem state_holds_latest_dispatched_value
    (msgs : list (string * string)) (w : world) :
  Forall (fun tm => is_Some (accepted tm.1 tm.2)) msgs ->
  let r := dispatch_all ticks msgs w in
  forall channel : string,
    state r.2.2 !! channel =
    match latest channel (accepted_all (take r.1 msgs)) with
    | Some v => Some v
    | None => state w !! channel
    end.
Proof.
  revert w. induction msgs as [| [topic msg] msgs IH]; intros w Hall r channel.
  - reflexivity.
  - inversion Hall as [| tm l [[c v] Hacc] Hrest]; subst. simpl in Hacc.
    pose proof (callback_accepted_state topic msg c v w Hacc) as Hst.
    subst r. simpl dispatch_all.
    destruct (mqtt_message_callback ticks topic msg w) as [[[] | e |] w'];
      cbn [fst snd] in Hst |- *.
    + rewrite firstn_cons, (accepted_all_cons _ _ _ _ _ Hacc). simpl latest.
      rewrite (IH w' Hrest channel), Hst.
      symmetry. apply lookup_after_assignment.
    + rewrite firstn_cons, take_0, (accepted_all_cons _ _ _ _ _ Hacc).
      simpl latest.
      rewrite Hst. symmetry.
      apply (lookup_after_assignment (state w) c v channel None).
    + rewrite firstn_cons, take_0, (accepted_all_cons _ _ _ _ _ Hacc).
      simpl latest.
      rewrite Hst. symmetry.
      apply (lookup_after_assignment (state w) c v channel None).
Qed.

(** ** Messages the callback does not act on *)

(** [int(msg)] is evaluated for the console before the channel is looked
    at: a payload that is no integer raises under any topic with the base
    prefix. *)
Lemma callback_payload_not_int topic msg t m w :
  decode_utf8 topic = Some t ->
  decode_utf8 msg = Some m ->
  startswith t mqtt_topic_base = true ->
  py_int (str_strip m) = None ->
  mqtt_message_callback ticks topic msg w = (Raised ValueError, w).
Proof.
  intros Ht Hm Hpre Hint. unfold mqtt_message_callback.
  unfold bind at 1. rewrite Ht. unfold or_raise at 1, ret at 1.
  unfold bind at 1. rewrite Hm. unfold or_raise at 1, ret at 1.
  cbv zeta. rewrite Hpre. unfold bind at 1. rewrite Hint.
  reflexivity.
Qed.

Lemma callback_unknown_channel_int topic msg t m v w :
  decode_utf8 topic = Some t ->
  decode_utf8 msg = Some m ->
  startswith t mqtt_topic_base = true ->
  str_slice_from (String.length mqtt_topic_base) t ∉ channels ->
  py_int (str_strip m) = Some v ->
  mqtt_message_callback ticks topic msg w = (Returned tt, w).
Proof.
  intros Ht Hm Hpre Hchan Hint. unfold mqtt_message_callback.
  unfold bind at 1. rewrite Ht. unfold or_raise at 1, ret at 1.
  unfold bind at 1. rewrite Hm. unfold or_raise at 1, ret at 1.
  cbv zeta. rewrite Hpre. unfold bind at 1. rewrite Hint.
  unfold or_raise at 1, ret at 1.
  rewrite bool_decide_eq_false_2 by exact Hchan. reflexivity.
Qed.

(** A message for an unknown channel changes nothing, whatever its
    payload. *)
Lemma callback_unknown_channel_world topic msg t w :
  decode_utf8 topic = Some t ->
  startswith t mqtt_topic_base = true ->
  str_slice_from (String.length mqtt_topic_base) t ∉ channels ->
  (mqtt_message_callback ticks topic msg w).2 = w.
Proof.
  intros Ht Hpre Hchan.
  destruct (decode_utf8 msg) as [m |] eqn:Hm.
  - destruct (py_int (str_strip m)) as [v |] eqn:Hint.
    + rewrite (callback_unknown_channel_int _ _ t m v); auto.
    + rewrite (callback_payload_not_int _ _ t m); auto.
  - unfold mqtt_message_callback.
    unfold bind at 1. rewrite Ht. unfold or_raise at 1, ret at 1.
    unfold bind at 1. rewrite Hm. reflexivity.
Qed.

(** C4, as the program has it.  A message under the base prefix, for a
    known channel, whose payload is no integer, leaves every variable as
    it was (channel state and window included) and raises [ValueError].
    Nothing catches it: it leaves the callback, and the turn of the main
    loop that polled the message ends there with the same exception,
    before rendering, before sleeping and before any later turn. *)
Theorem malformed_payload_raises_through_main_loop
    topic msg t m (polls : list (option (string * string))) (w : world) :
  decode_utf8 topic = Some t ->
  startswith t mqtt_topic_base = true ->
  str_slice_from (String.length mqtt_topic_base) t ∈ channels ->
  decode_utf8 msg = Some m ->
  py_int (str_strip m) = None ->
  mqtt_message_callback ticks topic msg w = (Raised ValueError, w) /\
  main_loop ticks (Some (topic, msg) :: polls) w = (Raised ValueError, w).
Proof.
  intros Ht Hpre _ Hm Hint.
  pose proof (callback_payload_not_int topic msg t m w Ht Hm Hpre Hint) as Hcb.
  split; [exact Hcb |].
  cbn [main_loop check_msg]. unfold bind at 1. rewrite Hcb. reflexivity.
Qed.

(** C7, as the program has it.  The prune loop has no test for an empty
    window: on an empty window its first step, [popleft], raises
    [IndexError] and the window stays empty.  The program enters the loop
    only right after [append], which never leaves the window empty. *)
Theorem prune_of_empty_window_raises (w : world) :
  motiontimes w = [] ->
  prune ticks w = (Raised IndexError, w) /\
  forall x d, motiontimes (motiontimes_append x (set_motiontimes d w)).2 <> [].
Proof.
  intros Hempty. split.
  - destruct w as [st d p k sl]. simpl in Hempty. subst d. reflexivity.
  - intros x d. apply deque_append_nonempty.
Qed.

(** ** The window after an accepted message *)

(** When the entry at the tail is young at every inspection, the loop
    stops at that entry at the latest. *)
Lemma pruned_stops_at_fresh_tail t0 (d : list Z) k :
  last d = Some t0 ->
  (forall j : nat, ticks (k + j) - t0 < 60000) ->
  exists d' k',
    pruned ticks k d = Some (d', k') /\ last d' = Some t0 /\
    d' `suffix_of` d.
Proof.
  revert k. induction d as [| e d IH]; intros k Hlast Hfresh; [discriminate |].
  simpl. destruct (ticks k - e <? 60000) eqn:Hyoung.
  - exists (e :: d), (S k). auto.
  - destruct d as [| e' d].
    + simpl in Hlast. injection Hlast as ->.
      specialize (Hfresh O). rewrite Nat.add_0_r in Hfresh.
      apply Z.ltb_ge in Hyoung. lia.
    + rewrite last_cons_cons in Hlast.
      destruct (IH (S k) Hlast) as (d' & k' & Hp & Hl & Hsuf).
      { intros j. replace (S k + j)%nat with (k + S j)%nat by lia.
        apply Hfresh. }
      exists d', k'. repeat split; [exact Hp | exact Hl |].
      apply suffix_cons_r. exact Hsuf.
Qed.

(** C10. On every accepted message, for a window within the capacity and
    a counter that stays less than 60000 ms past the appended timestamp
    while the loop runs, the prune loop terminates and the callback
    returns normally: the loop stops at the appended entry at the latest,
    [popleft] never meets an empty deque, and the window left is not empty
    and still ends with the appended timestamp. *)
Theorem prune_after_append_stops_at_new_entry topic msg c v (w : world) :
  accepted topic msg = Some (c, v) ->
  (length (motiontimes w) <= deque_maxlen)%nat ->
  (forall j : nat,
     ticks (S (ticks_read w) + j) - ticks (ticks_read w) < 60000) ->
  exists w',
    mqtt_message_callback ticks topic msg w = (Returned tt, w') /\
    motiontimes w' <> [] /\
    last (motiontimes w') = Some (ticks (ticks_read w)) /\
    motiontimes w' `suffix_of`
      deque_append (ticks (ticks_read w)) (motiontimes w).
Proof.
  intros Hacc Hcap Hfresh.
  rewrite (callback_accepted _ _ _ _ _ Hacc).
  rewrite prune_spec by (apply deque_append_length; exact Hcap).
  cbn [state motiontimes np ticks_read slept_ms].
  destruct (pruned_stops_at_fresh_tail (ticks (ticks_read w))
              (deque_append (ticks (ticks_read w)) (motiontimes w))
              (S (ticks_read w)))
    as (d' & k' & Hp & Hl & Hsuf);
    [apply deque_append_last; exact Hcap | exact Hfresh |].
  rewrite Hp. eexists. split; [reflexivity |].
  cbn [motiontimes]. repeat split; [| exact Hl | exact Hsuf].
  intros ->. discriminate Hl.
Qed.

(** C8. On every accepted message that finds the window at its capacity
    of 60 entries, with the entries that follow the oldest one less than
    60000 ms old at the first inspection, the callback returns normally
    and the window is the old one without its oldest entry, followed by
    the new timestamp: 60 entries again, the oldest one evicted whatever
    its age. *)
Theorem full_window_evicts_oldest topic msg c v (w : world) :
  accepted topic msg = Some (c, v) ->
  length (motiontimes w) = deque_maxlen ->
  (forall e, e ∈ tail (motiontimes w) ->
     ticks (S (ticks_read w)) - e < 60000) ->
  exists w',
    mqtt_message_callback ticks topic msg w = (Returned tt, w') /\
    motiontimes w' = tail (motiontimes w) ++ [ticks (ticks_read w)] /\
    length (motiontimes w') = 60%nat.
Proof.
  intros Hacc Hfull Hyoung.
  rewrite (callback_accepted _ _ _ _ _ Hacc).
  rewrite prune_spec
    by (apply deque_append_length; rewrite Hfull; reflexivity).
  cbn [state motiontimes np ticks_read slept_ms].
  rewrite (deque_append_full _ _ Hfull).
  destruct (motiontimes w) as [| e0 [| e1 d]] eqn:Hd;
    [discriminate Hfull | discriminate Hfull |].
  cbn [tail app pruned].
  assert (He1 : (ticks (S (ticks_read w)) - e1 <? 60000) = true).
  { apply Z.ltb_lt, Hyoung. simpl. left. }
  rewrite He1. eexists. split; [reflexivity |].
  cbn [motiontimes]. split; [reflexivity |].
  simpl in Hfull |- *. rewrite length_app. simpl.
  unfold deque_maxlen in Hfull. lia.
Qed.

(** ** Messages that are not accepted, and the invariant *)

Lemma pruned_suffix k (d d' : list Z) k' :
  pruned ticks k d = Some (d', k') -> d' `suffix_of` d /\ (k < k')%nat.
Proof.
  revert k. induction d as [| e d IH]; intros k Hp; [discriminate |].
  simpl in Hp. destruct (ticks k - e <? 60000).
  - injection Hp as <- <-. split; [reflexivity | lia].
  - destruct (IH _ Hp) as [Hsuf Hk]. split; [| lia].
    apply suffix_cons_r. exact Hsuf.
Qed.

Lemma deque_append_suffix x d : deque_append x d `suffix_of` d ++ [x].
Proof.
  unfold deque_append. cbv zeta.
  destruct (deque_maxlen <? length (d ++ [x]))%nat; [| reflexivity].
  destruct (d ++ [x]) as [| a l]; [reflexivity |].
  simpl. apply suffix_cons_r. reflexivity.
Qed.

(** A message that is not accepted changes nothing; the callback returns
    or raises. *)
Lemma callback_not_accepted topic msg w :
  accepted topic msg = None ->
  exists o, mqtt_message_callback ticks topic msg w = (o, w) /\ o <> OutOfFuel.
Proof.
  unfold accepted, mqtt_message_callback. intros Hacc.
  unfold bind at 1.
  destruct (decode_utf8 topic) as [t |];
    [| exists (Raised UnicodeError); split; [reflexivity | discriminate]].
  unfold or_raise at 1, ret at 1. unfold bind at 1.
  destruct (decode_utf8 msg) as [m |];
    [| exists (Raised UnicodeError); split; [reflexivity | discriminate]].
  unfold or_raise at 1, ret at 1. cbv zeta.
  destruct (startswith t mqtt_topic_base);
    [| exists (Returned tt); split; [reflexivity | discriminate]].
  unfold bind at 1.
  destruct (py_int (str_strip m)) as [v |];
    [| exists (Raised ValueError); split; [reflexivity | discriminate]].
  unfold or_raise at 1, ret at 1.
  destruct (bool_decide _); [discriminate Hacc |].
  exists (Returned tt). split; [reflexivity | discriminate].
Qed.

(** The callback always ends: the fuel of the loop never runs out. *)
Lemma callback_terminates topic msg w :
  (mqtt_message_callback ticks topic msg w).1 <> OutOfFuel.
Proof.
  destruct (accepted topic msg) as [[c v] |] eqn:Hacc.
  - rewrite (callback_accepted _ _ _ _ _ Hacc). apply prune_terminates.
  - destruct (callback_not_accepted topic msg w Hacc) as (o & -> & Ho).
    exact Ho.
Qed.

Lemma accepted_channel_known topic msg c v :
  accepted topic msg = Some (c, v) -> c ∈ channels.
Proof.
  unfold accepted. intros Hacc.
  destruct (decode_utf8 topic) as [t |]; [| discriminate].
  destruct (decode_utf8 msg) as [m |]; [| discriminate].
  destruct (startswith t mqtt_topic_base); [| discriminate].
  destruct (bool_decide _) eqn:Hchan; [| discriminate].
  destruct (py_int (str_strip m)); [| discriminate].
  simpl in Hacc. injection Hacc as <- <-.
  apply bool_decide_eq_true_1 in Hchan. exact Hchan.
Qed.

Lemma wf_world0 : wf world0.
Proof.
  split; [eexists; reflexivity |].
  split; [simpl; unfold deque_maxlen; lia | reflexivity].
Qed.

Lemma callback_preserves_wf topic msg w :
  wf w -> wf (mqtt_message_callback ticks topic msg w).2.
Proof.
  intros (Hmotion & Hcap & Hnp).
  destruct (accepted topic msg) as [[c v] |] eqn:Hacc.
  - rewrite (callback_accepted _ _ _ _ _ Hacc).
    rewrite prune_spec by (apply deque_append_length; exact Hcap).
    cbn [state motiontimes np ticks_read slept_ms].
    assert (Hkey : is_Some (<[c := v]> (state w) !! "motion")).
    { destruct (decide (c = "motion")) as [-> | Hne].
      - rewrite lookup_insert_eq. eexists. reflexivity.
      - rewrite lookup_insert_ne by exact Hne. exact Hmotion. }
    destruct (pruned _ _ _) as [[d' k'] |] eqn:Hp.
    + repeat split; [exact Hkey | | exact Hnp].
      cbn [snd motiontimes]. apply pruned_suffix in Hp as [Hsuf _].
      apply suffix_length in Hsuf.
      pose proof (deque_append_length (ticks (ticks_read w)) _ Hcap). lia.
    + repeat split; [exact Hkey | | exact Hnp].
      cbn [snd motiontimes length]. lia.
  - destruct (callback_not_accepted topic msg w Hacc) as (o & -> & _).
    repeat split; assumption.
Qed.

Lemma update_leds_preserves_wf w :
  wf w -> (update_leds w).1 = Returned tt /\ wf (update_leds w).2.
Proof.
  intros ([motion Hmotion] & Hcap & Hnp).
  rewrite (update_leds_result w motion Hmotion Hnp).
  split; [reflexivity |]. unfold wf.
  cbn [snd set_np state motiontimes np np_buf].
  split; [exists motion; exact Hmotion |].
  split; [exact Hcap | apply repeat_length].
Qed.

(** Every turn of the main loop keeps the invariant, and the turns
    scheduled always come to an end. *)
Lemma main_loop_preserves_wf polls w :
  wf w ->
  (main_loop ticks polls w).1 <> OutOfFuel /\ wf (main_loop ticks polls w).2.
Proof.
  revert w. induction polls as [| pending polls IH]; intros w Hwf.
  - split; [discriminate | exact Hwf].
  - assert (Hcheck : (check_msg ticks pending w).1 <> OutOfFuel /\
                     wf (check_msg ticks pending w).2).
    { destruct pending as [[topic msg] |]; cbn [check_msg].
      - split; [apply callback_terminates | apply callback_preserves_wf, Hwf].
      - split; [discriminate | exact Hwf]. }
    cbn [main_loop]. unfold bind.
    destruct (check_msg ticks pending w) as [[[] | e |] w1];
      cbn [fst snd] in Hcheck; destruct Hcheck as [Hfuel Hwf1].
    + destruct (update_leds_preserves_wf w1 Hwf1) as [Hret Hwf2].
      destruct (update_leds w1) as [o2 w2]. cbn [fst snd] in Hret, Hwf2.
      subst o2. cbn [sleep_ms].
      apply IH. destruct Hwf2 as (? & ? & ?). repeat split; assumption.
    + split; [discriminate | exact Hwf1].
    + contradiction.
Qed.

(** ** The window under a counter that does not wrap *)

Lemma suffix_sorted (d d' : list Z) :
  d' `suffix_of` d -> StronglySorted Z.le d -> StronglySorted Z.le d'.
Proof. intros [pre ->]. apply StronglySorted_app_1_r. Qed.

Lemma suffix_Forall (P : Z -> Prop) (d d' : list Z) :
  d' `suffix_of` d -> Forall P d -> Forall P d'.
Proof. intros [pre ->] Hall. apply Forall_app in Hall as [_ Hall]. exact Hall. Qed.

(** On a window in arrival order, the loop leaves only entries that are
    less than 60000 ms behind the reading it made last. *)
Lemma pruned_recent k (d d' : list Z) k' :
  StronglySorted Z.le d ->
  pruned ticks k d = Some (d', k') ->
  Forall (fun e => ticks (pred k') - e < 60000) d'.
Proof.
  revert k. induction d as [| e d IH]; intros k Hsorted Hp; [discriminate |].
  apply StronglySorted_cons in Hsorted as [Hle Hsorted].
  simpl in Hp. destruct (ticks k - e <? 60000) eqn:Hyoung.
  - injection Hp as <- <-. simpl. apply Z.ltb_lt in Hyoung.
    constructor; [exact Hyoung |].
    eapply Forall_impl; [exact Hle |]. simpl. intros x Hx. lia.
  - apply (IH (S k) Hsorted Hp).
Qed.

Lemma window_after_append_in_order t0 (d : list Z) :
  StronglySorted Z.le d ->
  Forall (fun e => e <= t0) d ->
  StronglySorted Z.le (deque_append t0 d) /\
  Forall (fun e => e <= t0) (deque_append t0 d).
Proof.
  intros Hsorted Hle.
  assert (Hs : StronglySorted Z.le (d ++ [t0])).
  { apply StronglySorted_app_2; [| exact Hsorted | repeat constructor].
    intros x1 x2 Hx1 Hx2. apply list_elem_of_singleton in Hx2 as ->.
    revert x1 Hx1. apply Forall_forall. exact Hle. }
  assert (Hf : Forall (fun e => e <= t0) (d ++ [t0])).
  { apply Forall_app. split; [exact Hle |]. repeat constructor. lia. }
  split.
  - exact (suffix_sorted _ _ (deque_append_suffix t0 d) Hs).
  - exact (suffix_Forall _ _ _ (deque_append_suffix t0 d) Hf).
Qed.

(** With a window in arrival order, every entry left by a dispatch that
    returns is less than 60000 ms behind the last reading of the counter. *)
Lemma window_recent_when_sorted topic msg c v w w' :
  accepted topic msg = Some (c, v) ->
  (length (motiontimes w) <= deque_maxlen)%nat ->
  window_in_order ticks w ->
  mqtt_message_callback ticks topic msg w = (Returned tt, w') ->
  Forall (fun e => ticks (pred (ticks_read w')) - e < 60000) (motiontimes w').
Proof.
  intros Hacc Hcap [Hsorted Hle].
  rewrite (callback_accepted _ _ _ _ _ Hacc).
  rewrite prune_spec by (apply deque_append_length; exact Hcap).
  cbn [state motiontimes np ticks_read slept_ms].
  destruct (window_after_append_in_order _ _ Hsorted Hle) as [Hs _].
  destruct (pruned _ _ _) as [[d' k'] |] eqn:Hp; [| discriminate].
  intros Hret. injection Hret as <-. cbn [motiontimes ticks_read].
  exact (pruned_recent _ _ _ _ Hs Hp).
Qed.

(** A counter that never steps back keeps the window in arrival order. *)
Lemma callback_keeps_window_in_order topic msg w :
  monotone ticks ->
  (length (motiontimes w) <= deque_maxlen)%nat ->
  window_in_order ticks w ->
  window_in_order ticks (mqtt_message_callback ticks topic msg w).2.
Proof.
  intros Hmono Hcap [Hsorted Hle].
  destruct (accepted topic msg) as [[c v] |] eqn:Hacc.
  - rewrite (callback_accepted _ _ _ _ _ Hacc).
    rewrite prune_spec by (apply deque_append_length; exact Hcap).
    cbn [state motiontimes np ticks_read slept_ms].
    destruct (window_after_append_in_order _ _ Hsorted Hle) as [Hs Hf].
    destruct (pruned _ _ _) as [[d' k'] |] eqn:Hp.
    + apply pruned_suffix in Hp as [Hsuf Hk]. split; cbn [snd motiontimes ticks_read].
      * exact (suffix_sorted _ _ Hsuf Hs).
      * eapply Forall_impl; [exact (suffix_Forall _ _ _ Hsuf Hf) |].
        simpl. intros x Hx.
        pose proof (Hmono (ticks_read w) k' ltac:(lia)). lia.
    + split; cbn [snd motiontimes]; constructor.
  - destruct (callback_not_accepted topic msg w Hacc) as (o & -> & _).
    split; assumption.
Qed.

End Properties.

(** * The properties on concrete runs *)

Lemma state_holds_latest_dispatched_value_witness :
  Forall (fun tm => is_Some (@accepted ascii_runtime tm.1 tm.2)) two_motions /\
  state (@dispatch_all ascii_runtime (steady 1000) two_motions world0).2.2
    !! "motion" = Some 0.
Proof.
  assert (Hall : Forall (fun tm => is_Some (@accepted ascii_runtime tm.1 tm.2))
                        two_motions).
  { repeat constructor; eexists; reflexivity. }
  split; [exact Hall |].
  exact (@state_holds_latest_dispatched_value ascii_runtime (steady 1000)
           two_motions world0 Hall "motion").
Defined.

Lemma update_leds_overwrites_all_pixels_witness :
  state world0 !! "motion" = Some 0 /\
  length (np_buf (np world0)) = number_of_leds /\
  exists w',
    update_leds world0 = (Returned tt, w') /\
    length (np_buf (np w')) = 90%nat /\
    (forall x pixel, np_buf (np w') !! x = Some pixel ->
       pixel = if 0 =? 1 then (255, 0, 0, 0) else (0, 255, 0, 0)) /\
    np_frames (np w') = np_frames (np world0) ++ [np_buf (np w')] /\
    state w' = state world0 /\ motiontimes w' = motiontimes world0.
Proof.
  split; [reflexivity |]. split; [reflexivity |].
  apply (update_leds_overwrites_all_pixels world0 0); reflexivity.
Defined.

Lemma update_leds_depends_on_state_only_witness :
  state world0 = state world_other /\
  motiontimes world0 <> motiontimes world_other /\
  np_buf (np (update_leds world0).2) = np_buf (np (update_leds world_other).2).
Proof.
  split; [reflexivity |]. split; [discriminate |].
  apply (update_leds_depends_on_state_only world0 world_other);
    [reflexivity | eexists; reflexivity | reflexivity | reflexivity].
Defined.

(** C4 fails as stated: the payload "not-a-number" on "dinky/motion" is
    not contained in the callback.  Of the two turns of the main loop
    scheduled here, the first ends with [ValueError]; no frame is ever
    rendered and the loop never sleeps. *)
Lemma malformed_payload_aborts_main_loop :
  let r := @main_loop ascii_runtime (steady 1000)
             [Some ("dinky/motion", "not-a-number"); None] world0 in
  r.1 = Raised ValueError /\
  np_frames (np r.2) = [] /\
  slept_ms r.2 = 0 /\
  ~ exists w', r = (Returned tt, w').
Proof.
  vm_compute. repeat split; try reflexivity.
  intros [w' Hr]. discriminate Hr.
Qed.

Lemma malformed_payload_raises_through_main_loop_witness :
  @mqtt_message_callback ascii_runtime (steady 1000)
    "dinky/motion" "not-a-number" world0 = (Raised ValueError, world0) /\
  @main_loop ascii_runtime (steady 1000)
    [Some ("dinky/motion", "not-a-number"); None] world0
  = (Raised ValueError, world0).
Proof.
  apply (@malformed_payload_raises_through_main_loop ascii_runtime
           (steady 1000) "dinky/motion" "not-a-number"
           "dinky/motion" "not-a-number" [None] world0).
  - reflexivity.
  - reflexivity.
  - apply (bool_decide_unpack _). vm_compute. exact I.
  - reflexivity.
  - reflexivity.
Defined.

(** C5 on the program.  A message for the unknown channel "other" with the
    payload "abc" is not ignored silently: [int(msg)], evaluated for the
    console before the channel is looked at, raises [ValueError].  The
    variables are left as they were. *)
Theorem unknown_channel_text_payload_raises :
  @mqtt_message_callback ascii_runtime (steady 1000)
    "dinky/other" "abc" world0 = (Raised ValueError, world0) /\
  str_slice_from (String.length mqtt_topic_base) "dinky/other" ∉ channels.
Proof.
  split; [vm_compute; reflexivity |].
  apply (bool_decide_unpack _). vm_compute. exact I.
Qed.

(** C7 fails as stated: pruning the empty window of the initial world is
    not a no-op that returns; it raises [IndexError]. *)
Lemma prune_of_empty_window_is_an_error :
  motiontimes world0 = [] /\
  (prune (steady 1000) world0).1 = Raised IndexError /\
  (prune (steady 1000) world0).1 <> Returned tt.
Proof. repeat split; discriminate. Qed.

Lemma prune_of_empty_window_raises_witness :
  motiontimes world0 = [] /\
  prune (steady 1000) world0 = (Raised IndexError, world0).
Proof.
  split; [reflexivity |].
  apply (prune_of_empty_window_raises (steady 1000) world0). reflexivity.
Defined.

Lemma full_window_evicts_oldest_witness :
  length (motiontimes world_full) = deque_maxlen /\
  exists w',
    @mqtt_message_callback ascii_runtime (steady 1060)
      "dinky/motion" "1" world_full = (Returned tt, w') /\
    motiontimes w' = tail full_window ++ [1060] /\
    length (motiontimes w') = 60%nat.
Proof.
  split; [reflexivity |].
  apply (@full_window_evicts_oldest ascii_runtime (steady 1060)
           "dinky/motion" "1" "motion" 1 world_full).
  - reflexivity.
  - reflexivity.
  - apply Forall_forall. apply (bool_decide_unpack _). vm_compute. exact I.
Defined.

Lemma prune_after_append_stops_at_new_entry_witness :
  exists w',
    @mqtt_message_callback ascii_runtime (steady 1000)
      "dinky/motion" "1" world0 = (Returned tt, w') /\
    motiontimes w' <> [] /\
    last (motiontimes w') = Some 1000 /\
    motiontimes w' `suffix_of` deque_append 1000 (motiontimes world0).
Proof.
  apply (@prune_after_append_stops_at_new_entry ascii_runtime (steady 1000)
           "dinky/motion" "1" "motion" 1 world0).
  - reflexivity.
  - simpl. unfold deque_maxlen. lia.
  - intros j. unfold steady. lia.
Defined.

(** C3 on the program.  Three motion messages, the counter wrapping
    between the first and the second: all three return normally, and the
    window keeps the entry stamped 3 although the counter last read 70000,
    an age of 69997 ms.  The head, stamped before the wrap, makes
    [now - timestamp] negative and stops the loop. *)
Theorem window_keeps_stale_entry_after_wrap :
  let r := @dispatch_all ascii_runtime ticks_across_wrap three_motions world0 in
  r.1 = 3%nat /\
  r.2.1 = Returned tt /\
  motiontimes r.2.2 = [2 ^ 30 - 5; 3; 70000] /\
  ticks_across_wrap (pred (ticks_read r.2.2)) = 70000 /\
  ticks_diff 70000 3 = 69997 /\
  ~ Forall (fun e => 70000 - e < 60000) (motiontimes r.2.2).
Proof.
  vm_compute. repeat split; try reflexivity.
  intros Hall. apply Forall_cons_1 in Hall as [_ Hall].
  apply Forall_cons_1 in Hall as [Hstale _]. vm_compute in Hstale.
  discriminate Hstale.
Qed.

(** C6 on the program.  An entry stamped 10 ms before the counter wraps is
    inspected 70010 ms later, when the counter reads 70000: the plain
    difference is negative, the entry is put back and stays in the window,
    although [ticks_diff] gives its age as 70010 ms. *)
Theorem prune_subtraction_fails_across_wrap :
  let r := @dispatch_all ascii_runtime ticks_wrapped_once two_motions world0 in
  r.2.1 = Returned tt /\
  motiontimes r.2.2 = [2 ^ 30 - 10; 70000] /\
  ticks_diff 70000 (2 ^ 30 - 10) = 70010 /\
  70000 - (2 ^ 30 - 10) < 60000.
Proof. vm_compute. repeat split; reflexivity. Qed.

(** * Further properties of the program *)

Lemma startswith_slice (p t : string) :
  startswith t p = true ->
  t = String.append p (str_slice_from (String.length p) t).
Proof.
  unfold startswith. revert t. induction p as [| a p IH]; intros t Hpre.
  - reflexivity.
  - destruct t as [| b t]; [discriminate Hpre |].
    simpl in Hpre.
    destruct (Ascii.ascii_dec a b) as [-> | Hne]; [| discriminate Hpre].
    change (String b t =
            String b (String.append
                        p (str_slice_from (String.length p) t))).
    f_equal. apply IH. exact Hpre.
Qed.

Section Coverage.

Context `{Runtime}.
Variable ticks : nat -> Z.

(** ** The callback on messages it does not accept *)

Lemma callback_not_accepted_outcome topic msg w :
  accepted topic msg = None ->
  exists o,
    mqtt_message_callback ticks topic msg w = (o, w) /\
    (o = Returned tt \/ o = Raised UnicodeError \/ o = Raised ValueError).
Proof.
  unfold accepted, mqtt_message_callback. intros Hacc.
  unfold bind at 1.
  destruct (decode_utf8 topic) as [t |];
    [| exists (Raised UnicodeError); auto].
  unfold or_raise at 1, ret at 1. unfold bind at 1.
  destruct (decode_utf8 msg) as [m |];
    [| exists (Raised UnicodeError); auto].
  unfold or_raise at 1, ret at 1. cbv zeta.
  destruct (startswith t mqtt_topic_base);
    [| exists (Returned tt); auto].
  unfold bind at 1.
  destruct (py_int (str_strip m)) as [v |];
    [| exists (Raised ValueError); auto].
  unfold or_raise at 1, ret at 1.
  destruct (bool_decide _); [discriminate Hacc |].
  exists (Returned tt). auto.
Qed.

(** X1. A message the callback does not accept (a part that does not
    decode, a topic outside the base prefix, an unknown channel or a
    payload that is no integer) changes none of the program's variables;
    the callback returns, or raises [UnicodeError] or [ValueError], and
    nothing else. *)
Theorem callback_changes_nothing_unless_accepted topic msg (w : world) :
  accepted topic msg = None ->
  (mqtt_message_callback ticks topic msg w).2 = w /\
  ((mqtt_message_callback ticks topic msg w).1 = Returned tt \/
   (mqtt_message_callback ticks topic msg w).1 = Raised UnicodeError \/
   (mqtt_message_callback ticks topic msg w).1 = Raised ValueError).
Proof.
  intros Hacc.
  destruct (callback_not_accepted_outcome topic msg w Hacc) as (o & -> & Ho).
  split; [reflexivity | exact Ho].
Qed.

(** X2. A topic that does not start with "dinky/" is ignored silently
    whatever the payload says, integer or not: the payload is decoded and
    stripped but never read as a number.  The callback returns and no
    variable changes. *)
Theorem topic_outside_prefix_is_ignored topic msg t m (w : world) :
  decode_utf8 topic = Some t ->
  decode_utf8 msg = Some m ->
  startswith t mqtt_topic_base = false ->
  mqtt_message_callback ticks topic msg w = (Returned tt, w).
Proof.
  intros Ht Hm Hpre. unfold mqtt_message_callback.
  unfold bind at 1. rewrite Ht. unfold or_raise at 1, ret at 1.
  unfold bind at 1. rewrite Hm. unfold or_raise at 1, ret at 1.
  cbv zeta. rewrite Hpre. reflexivity.
Qed.

(** X3. A message under the base prefix for a channel that is not in
    [channels], with a payload that reads as an integer, is ignored
    silently: the callback returns, [state], the window and the counter
    are as before. *)
Theorem unknown_channel_integer_payload_is_ignored topic msg t m v (w : world) :
  decode_utf8 topic = Some t ->
  decode_utf8 msg = Some m ->
  startswith t mqtt_topic_base = true ->
  str_slice_from (String.length mqtt_topic_base) t ∉ channels ->
  py_int (str_strip m) = Some v ->
  mqtt_message_callback ticks topic msg w = (Returned tt, w).
Proof. apply callback_unknown_channel_int. Qed.

Lemma accepted_inv topic msg c v :
  accepted topic msg = Some (c, v) ->
  c = "motion" /\
  decode_utf8 topic = Some "dinky/motion" /\
  exists m, decode_utf8 msg = Some m /\ py_int (str_strip m) = Some v.
Proof.
  unfold accepted. intros Hacc.
  destruct (decode_utf8 topic) as [t |]; [| discriminate].
  destruct (decode_utf8 msg) as [m |]; [| discriminate].
  destruct (startswith t mqtt_topic_base) eqn:Hpre; [| discriminate].
  destruct (bool_decide _) eqn:Hchan; [| discriminate].
  destruct (py_int (str_strip m)) as [n |] eqn:Hint; [| discriminate].
  simpl in Hacc. injection Hacc as <- <-.
  apply bool_decide_eq_true_1 in Hchan.
  apply list_elem_of_singleton in Hchan.
  split; [exact Hchan |]. split; [| exists m; auto].
  rewrite (startswith_slice _ _ Hpre), Hchan. reflexivity.
Qed.

(** X4. The only topic the callback acts on is "dinky/motion": with any
    other topic, whatever the payload and however the callback ends, no
    variable changes. *)
Theorem only_dinky_motion_changes_anything topic msg (w : world) :
  decode_utf8 topic <> Some "dinky/motion" ->
  (mqtt_message_callback ticks topic msg w).2 = w.
Proof.
  intros Htopic.
  destruct (accepted topic msg) as [[c v] |] eqn:Hacc.
  - apply accepted_inv in Hacc as (_ & Ht & _). contradiction.
  - destruct (callback_not_accepted ticks topic msg w Hacc) as (o & -> & _).
    reflexivity.
Qed.

(** ** What a dispatch does to the window and the counter *)

Lemma pruned_reads k (d d' : list Z) k' :
  pruned ticks k d = Some (d', k') -> (k' <= k + length d)%nat.
Proof.
  revert k. induction d as [| e d IH]; intros k Hp; [discriminate |].
  simpl in Hp. destruct (ticks k - e <? 60000).
  - injection Hp as <- <-. simpl. lia.
  - apply IH in Hp. simpl. lia.
Qed.

Lemma pruned_nonempty k (d d' : list Z) k' :
  pruned ticks k d = Some (d', k') -> d' <> [].
Proof.
  revert k. induction d as [| e d IH]; intros k Hp; [discriminate |].
  simpl in Hp. destruct (ticks k - e <? 60000).
  - injection Hp as <- <-. discriminate.
  - exact (IH _ Hp).
Qed.

(** X5. A dispatch reads the millisecond counter at most 61 times, once
    for [append] and once per turn of the prune loop, and the loop always
    comes to an end: for every message, window within the capacity and
    behaviour of the counter, the callback returns or raises. *)
Theorem dispatch_reads_counter_at_most_61_times topic msg (w : world) :
  (length (motiontimes w) <= deque_maxlen)%nat ->
  (mqtt_message_callback ticks topic msg w).1 <> OutOfFuel /\
  (ticks_read w <= ticks_read (mqtt_message_callback ticks topic msg w).2)%nat /\
  (ticks_read (mqtt_message_callback ticks topic msg w).2
   <= ticks_read w + 61)%nat.
Proof.
  intros Hcap. split; [apply callback_terminates |].
  destruct (accepted topic msg) as [[c v] |] eqn:Hacc.
  - rewrite (callback_accepted _ _ _ _ _ _ Hacc).
    rewrite prune_spec by (apply deque_append_length; exact Hcap).
    cbn [state motiontimes np ticks_read slept_ms].
    pose proof (deque_append_length (ticks (ticks_read w)) _ Hcap) as Hlen.
    unfold deque_maxlen in Hlen.
    destruct (pruned _ _ _) as [[d' k'] |] eqn:Hp; cbn [snd ticks_read].
    + pose proof (pruned_reads _ _ _ _ Hp).
      apply pruned_suffix in Hp as [_ Hlt]. lia.
    + lia.
  - destruct (callback_not_accepted ticks topic msg w Hacc) as (o & -> & _).
    cbn [snd]. lia.
Qed.

(** X6. An accepted message assigns [state[channel]], leaves the strip
    and the sleep total alone, and leaves as window a suffix of the old
    window followed by the new timestamp: entries are only ever removed at
    the head, the rest keeps its order.  The callback returns, or raises
    [IndexError] with the window empty. *)
Theorem accepted_dispatch_effects topic msg c v (w : world) :
  accepted topic msg = Some (c, v) ->
  (length (motiontimes w) <= deque_maxlen)%nat ->
  let r := mqtt_message_callback ticks topic msg w in
  state r.2 = <[c := v]> (state w) /\
  np r.2 = np w /\
  slept_ms r.2 = slept_ms w /\
  motiontimes r.2 `suffix_of` motiontimes w ++ [ticks (ticks_read w)] /\
  (r.1 = Returned tt /\ motiontimes r.2 <> [] \/
   r.1 = Raised IndexError /\ motiontimes r.2 = []).
Proof.
  intros Hacc Hcap r. subst r.
  rewrite (callback_accepted _ _ _ _ _ _ Hacc).
  rewrite prune_spec by (apply deque_append_length; exact Hcap).
  cbn [state motiontimes np ticks_read slept_ms].
  destruct (pruned _ _ _) as [[d' k'] |] eqn:Hp;
    cbn [fst snd state motiontimes np slept_ms].
  - repeat split; auto.
    + apply pruned_suffix in Hp as [Hsuf _].
      etrans; [exact Hsuf | apply deque_append_suffix].
    + left. split; [reflexivity | exact (pruned_nonempty _ _ _ _ Hp)].
  - repeat split; auto. apply suffix_nil.
Qed.

Lemma pruned_steady now k (d : list Z) :
  (forall j : nat, ticks (k + j) = now) ->
  match pruned ticks k d with
  | Some (d', _) => d' = drop_stale now d /\ d' <> []
  | None => drop_stale now d = []
  end.
Proof.
  revert k. induction d as [| e d IH]; intros k Hnow; [reflexivity |].
  simpl. pose proof (Hnow O) as H0. rewrite Nat.add_0_r in H0. rewrite H0.
  destruct (now - e <? 60000); [split; [reflexivity | discriminate] |].
  apply IH. intros j. replace (S k + j)%nat with (k + S j)%nat by lia.
  apply Hnow.
Qed.

(** X7. When the counter shows the same value [now] at every inspection
    of the loop, an accepted dispatch leaves exactly the window after
    [append] without its leading entries aged 60000 ms or more; it returns
    when an entry is left and raises [IndexError] when none is. *)
Theorem prune_drops_leading_stale_entries topic msg c v now (w : world) :
  accepted topic msg = Some (c, v) ->
  (length (motiontimes w) <= deque_maxlen)%nat ->
  (forall j : nat, ticks (S (ticks_read w) + j) = now) ->
  let kept :=
    drop_stale now (deque_append (ticks (ticks_read w)) (motiontimes w)) in
  motiontimes (mqtt_message_callback ticks topic msg w).2 = kept /\
  (mqtt_message_callback ticks topic msg w).1 =
  match kept with
  | [] => Raised IndexError
  | _ :: _ => Returned tt
  end.
Proof.
  intros Hacc Hcap Hnow kept. subst kept.
  rewrite (callback_accepted _ _ _ _ _ _ Hacc).
  rewrite prune_spec by (apply deque_append_length; exact Hcap).
  cbn [state motiontimes np ticks_read slept_ms].
  pose proof (pruned_steady now (S (ticks_read w))
                (deque_append (ticks (ticks_read w)) (motiontimes w)) Hnow)
    as Hsteady.
  destruct (pruned _ _ _) as [[d' k'] |]; cbn [fst snd motiontimes].
  - destruct Hsteady as [<- Hne]. split; [reflexivity |].
    destruct d'; [contradiction | reflexivity].
  - rewrite Hsteady. split; reflexivity.
Qed.

Lemma drop_stale_head_young now (d : list Z) e d' :
  drop_stale now d = e :: d' -> (now - e <? 60000) = true.
Proof.
  induction d as [| a d IH]; [discriminate |].
  simpl. destruct (now - a <? 60000) eqn:Hyoung; [| exact IH].
  intros Heq. injection Heq as <- <-. exact Hyoung.
Qed.

(** X8. Pruning is idempotent while the counter stands still: when the
    loop has returned, running it again at the same reading returns again
    and leaves the window as the first run left it. *)
Theorem prune_twice_is_prune_once now (w w1 : world) :
  (length (motiontimes w) <= deque_maxlen)%nat ->
  (forall j : nat, ticks (ticks_read w + j) = now) ->
  prune ticks w = (Returned tt, w1) ->
  exists w2,
    prune ticks w1 = (Returned tt, w2) /\ motiontimes w2 = motiontimes w1.
Proof.
  intros Hcap Hnow. rewrite prune_spec by exact Hcap.
  pose proof (pruned_steady now (ticks_read w) (motiontimes w) Hnow) as Hsteady.
  destruct (pruned _ _ _) as [[d' k'] |] eqn:Hp; [| discriminate].
  destruct Hsteady as [Hd' Hne]. intros Hret. injection Hret as <-.
  pose proof (pruned_suffix _ _ _ _ _ Hp) as [Hsuf Hlt].
  rewrite prune_spec
    by (cbn [motiontimes]; apply suffix_length in Hsuf; lia).
  cbn [state motiontimes np ticks_read slept_ms].
  destruct d' as [| e d'']; [contradiction |].
  symmetry in Hd'. apply drop_stale_head_young in Hd'.
  cbn [pruned].
  replace (ticks k') with now
    by (symmetry; replace k' with (ticks_read w + (k' - ticks_read w))%nat
          by lia; apply Hnow).
  rewrite Hd'. eexists. split; reflexivity.
Qed.

(** X10. The callback never adds or removes a key of [state]: when every
    known channel has its entry, the keys after the callback are the keys
    before it, for every message and every way the callback ends. *)
Theorem callback_keeps_state_keys topic msg (w : world) :
  (forall c, c ∈ channels -> is_Some (state w !! c)) ->
  dom (state (mqtt_message_callback ticks topic msg w).2) = dom (state w).
Proof.
  intros Hkeys.
  destruct (accepted topic msg) as [[c v] |] eqn:Hacc.
  - rewrite (callback_accepted_state _ _ _ _ _ _ Hacc).
    apply dom_insert_lookup_L, Hkeys.
    exact (accepted_channel_known _ _ _ _ Hacc).
  - destruct (callback_not_accepted ticks topic msg w Hacc) as (o & -> & _).
    reflexivity.
Qed.

Lemma callback_frame topic msg (w : world) :
  np (mqtt_message_callback ticks topic msg w).2 = np w /\
  slept_ms (mqtt_message_callback ticks topic msg w).2 = slept_ms w.
Proof.
  destruct (accepted topic msg) as [[c v] |] eqn:Hacc.
  - rewrite (callback_accepted _ _ _ _ _ _ Hacc). unfold prune.
    match goal with |- context [prune_loop ticks ?f ?w0] =>
      destruct (prune_loop_frame ticks f w0) as (_ & Hnp & Hsl) end.
    split; [exact Hnp | exact Hsl].
  - destruct (callback_not_accepted ticks topic msg w Hacc) as (o & -> & _).
    split; reflexivity.
Qed.

(** X11. The callback never writes to the strip and never sleeps: the
    pixel buffer, the frames written and the sleep total are the same
    after it as before, for every message and every way it ends.  The
    strip changes in [update_leds] only. *)
Theorem callback_leaves_strip_alone topic msg (w : world) :
  np (mqtt_message_callback ticks topic msg w).2 = np w /\
  slept_ms (mqtt_message_callback ticks topic msg w).2 = slept_ms w.
Proof. apply callback_frame. Qed.

(** ** Runs of the callback under a counter that does not wrap *)

Lemma callback_keeps_recent topic msg (w : world) :
  (length (motiontimes w) <= deque_maxlen)%nat ->
  window_in_order ticks w ->
  window_recent ticks w ->
  window_recent ticks (mqtt_message_callback ticks topic msg w).2.
Proof.
  intros Hcap [Hsorted Hle] Hrecent.
  destruct (accepted topic msg) as [[c v] |] eqn:Hacc.
  - rewrite (callback_accepted _ _ _ _ _ _ Hacc).
    rewrite prune_spec by (apply deque_append_length; exact Hcap).
    cbn [state motiontimes np ticks_read slept_ms].
    destruct (window_after_append_in_order _ _ Hsorted Hle) as [Hs _].
    destruct (pruned _ _ _) as [[d' k'] |] eqn:Hp; unfold window_recent;
      cbn [snd motiontimes ticks_read].
    + exact (pruned_recent _ _ _ _ _ Hs Hp).
    + constructor.
  - destruct (callback_not_accepted ticks topic msg w Hacc) as (o & -> & _).
    exact Hrecent.
Qed.

(** X9. Under a counter that never steps back (no wrap during the run),
    every run of the callback keeps the window in arrival order, within
    its capacity, and free of stale entries: after the run, whatever the
    messages were and however the run ended, each entry of the window is
    less than 60000 ms behind the last reading of the counter. *)
Theorem window_stays_recent_without_wrap
    (msgs : list (string * string)) (w : world) :
  monotone ticks ->
  wf w ->
  window_in_order ticks w ->
  window_recent ticks w ->
  let w' := (dispatch_all ticks msgs w).2.2 in
  window_recent ticks w' /\ window_in_order ticks w' /\ wf w'.
Proof.
  intros Hmono. revert w.
  induction msgs as [| [topic msg] msgs IH]; intros w Hwf Horder Hrecent.
  - cbn. auto.
  - pose proof (callback_keeps_recent topic msg w (proj1 (proj2 Hwf))
                  Horder Hrecent) as Hr1.
    pose proof (callback_keeps_window_in_order ticks topic msg w Hmono
                  (proj1 (proj2 Hwf)) Horder) as Ho1.
    pose proof (callback_preserves_wf ticks topic msg w Hwf) as Hw1.
    cbn [dispatch_all].
    destruct (mqtt_message_callback ticks topic msg w) as [[[] | e |] w1];
      cbn [fst snd] in *.
    + exact (IH w1 Hw1 Ho1 Hr1).
    + auto.
    + auto.
Qed.

(** ** The main loop *)

Lemma callback_outcome_cases topic msg (w : world) :
  (length (motiontimes w) <= deque_maxlen)%nat ->
  let o := (mqtt_message_callback ticks topic msg w).1 in
  o = Returned tt \/ o = Raised UnicodeError \/ o = Raised ValueError \/
  o = Raised IndexError.
Proof.
  intros Hcap o. subst o.
  destruct (accepted topic msg) as [[c v] |] eqn:Hacc.
  - rewrite (callback_accepted _ _ _ _ _ _ Hacc).
    rewrite prune_spec by (apply deque_append_length; exact Hcap).
    destruct (pruned _ _ _) as [[d' k'] |]; cbn [fst]; auto.
  - destruct (callback_not_accepted_outcome topic msg w Hacc)
      as (o & -> & [-> | [-> | ->]]); cbn [fst]; auto.
Qed.

(** X13. From a world that satisfies the invariant (a value for "motion",
    a window of at most 60 entries, a strip of 90 pixels), any number of
    turns of the main loop on any messages ends in a world that satisfies
    it again, and rendering never fails: the loop ends by running out of
    turns or with an exception of the callback ([UnicodeError],
    [ValueError], [IndexError]), never with [KeyError]. *)
Theorem main_loop_keeps_invariant
    (polls : list (option (string * string))) (w : world) :
  wf w ->
  let r := main_loop ticks polls w in
  wf r.2 /\
  (r.1 = Returned tt \/ r.1 = Raised UnicodeError \/
   r.1 = Raised ValueError \/ r.1 = Raised IndexError).
Proof.
  revert w. induction polls as [| pending polls IH]; intros w Hwf r; subst r.
  - cbn. auto.
  - assert (Hcheck :
      wf (check_msg ticks pending w).2 /\
      ((check_msg ticks pending w).1 = Returned tt \/
       (check_msg ticks pending w).1 = Raised UnicodeError \/
       (check_msg ticks pending w).1 = Raised ValueError \/
       (check_msg ticks pending w).1 = Raised IndexError)).
    { destruct pending as [[topic msg] |]; cbn [check_msg].
      - split; [apply callback_preserves_wf, Hwf |].
        apply callback_outcome_cases, Hwf.
      - cbn. auto. }
    cbn [main_loop]. unfold bind.
    destruct (check_msg ticks pending w) as [[[] | e |] w1];
      cbn [fst snd] in Hcheck; destruct Hcheck as [Hwf1 Hout].
    + destruct (update_leds_preserves_wf w1 Hwf1) as [Hret Hwf2].
      destruct (update_leds w1) as [o2 w2]. cbn [fst snd] in Hret, Hwf2.
      subst o2. cbn [sleep_ms].
      apply IH. destruct Hwf2 as (? & ? & ?). repeat split; assumption.
    + cbn [fst snd]. auto.
    + destruct Hout as [? | [? | [? | ?]]]; discriminate.
Qed.

(** X12. When the turns of the main loop all complete, each of them wrote
    exactly one frame and slept 25 ms, and the strip shows the colour of
    the final value of "motion": red for 1, green otherwise. *)
Theorem main_loop_renders_every_turn
    (polls : list (option (string * string))) (w w' : world) :
  wf w ->
  polls <> [] ->
  main_loop ticks polls w = (Returned tt, w') ->
  length (np_frames (np w')) =
    (length (np_frames (np w)) + length polls)%nat /\
  slept_ms w' = slept_ms w + 25 * Z.of_nat (length polls) /\
  exists motion,
    state w' !! "motion" = Some motion /\
    np_buf (np w') = repeat (motion_color motion) number_of_leds /\
    last (np_frames (np w')) = Some (repeat (motion_color motion) number_of_leds).
Proof.
  revert w. induction polls as [| pending polls IH]; intros w Hwf Hne;
    [contradiction |].
  cbn [main_loop]. unfold bind at 1.
  assert (Hcheck : wf (check_msg ticks pending w).2 /\
                   np (check_msg ticks pending w).2 = np w /\
                   slept_ms (check_msg ticks pending w).2 = slept_ms w).
  { destruct pending as [[topic msg] |]; cbn [check_msg].
    - split; [apply callback_preserves_wf, Hwf | apply callback_frame].
    - cbn. auto. }
  destruct (check_msg ticks pending w) as [[[] | e |] w1];
    [| discriminate | discriminate].
  cbn [fst snd] in Hcheck. destruct Hcheck as (Hwf1 & Hnp1 & Hsl1).
  destruct Hwf1 as ([motion Hmotion] & Hcap1 & Hlen1).
  unfold bind at 1. rewrite (update_leds_result w1 motion Hmotion Hlen1).
  unfold bind at 1. cbn [sleep_ms set_np state motiontimes np ticks_read slept_ms].
  set (w3 := mkWorld _ _ _ _ _).
  assert (Hwf3 : wf w3).
  { split; [exists motion; exact Hmotion |].
    split; [exact Hcap1 | apply repeat_length]. }
  destruct polls as [| pending' polls].
  - cbn [main_loop ret]. intros Hret. injection Hret as <-.
    subst w3. cbn [np np_frames np_buf slept_ms state length].
    rewrite length_app, Hnp1, Hsl1. cbn [length].
    split; [lia |]. split; [lia |].
    exists motion. split; [exact Hmotion |].
    split; [reflexivity | apply last_snoc].
  - intros Hret.
    destruct (IH w3 Hwf3 ltac:(discriminate) Hret) as (Hfr & Hsl & Hshow).
    subst w3. cbn [np np_frames slept_ms] in Hfr, Hsl.
    rewrite length_app, Hnp1 in Hfr. cbn [length] in Hfr.
    rewrite Hsl1 in Hsl. cbn [length] in Hfr, Hsl |- *.
    split; [lia |]. split; [lia | exact Hshow].
Qed.

End Coverage.

(** ** The start-up sequence *)

Lemma for_range_assigns c st d fr k sl (suf pre : list color) :
  for_range (seq (length pre) (length suf)) (fun x => np_assign x c)
            (mkWorld st d (mkNeoPixel (pre ++ suf) fr) k sl) =
  (Returned tt,
   mkWorld st d (mkNeoPixel (pre ++ repeat c (length suf)) fr) k sl).
Proof.
  revert pre. induction suf as [| a suf IH]; intros pre.
  - reflexivity.
  - cbn [length seq for_range]. unfold bind at 1.
    unfold np_assign at 1, np_setitem. cbn [np np_buf np_frames].
    assert (Hin : (length pre <? length (pre ++ a :: suf))%nat = true).
    { apply Nat.ltb_lt. rewrite length_app. simpl. lia. }
    rewrite Hin.
    replace (<[length pre := c]> (pre ++ a :: suf))
      with ((pre ++ [c]) ++ suf).
    2:{ rewrite <- (Nat.add_0_r (length pre)) at 1.
        rewrite insert_app_r. rewrite <- app_assoc. reflexivity. }
    unfold set_np. cbn [state motiontimes ticks_read slept_ms].
    specialize (IH (pre ++ [c])).
    rewrite length_app in IH. simpl length in IH.
    rewrite Nat.add_1_r in IH. rewrite IH.
    rewrite <- app_assoc. reflexivity.
Qed.

Lemma fill_all_leds_result r g b wh (w : world) :
  length (np_buf (np w)) = number_of_leds ->
  fill_all_leds r g b wh w = (Returned tt, show (r, g, b, wh) w).
Proof.
  intros Hlen. destruct w as [st d [buf fr] k sl]. simpl in Hlen.
  unfold fill_all_leds, bind.
  pose proof (for_range_assigns (r, g, b, wh) st d fr k sl buf []) as Hfill.
  simpl in Hfill. rewrite Hlen in Hfill. rewrite Hfill.
  reflexivity.
Qed.

Lemma show_strip c w : length (np_buf (np (show c w))) = number_of_leds.
Proof. apply repeat_length. Qed.

Lemma asleep_strip ms w :
  length (np_buf (np w)) = number_of_leds ->
  length (np_buf (np (asleep ms w))) = number_of_leds.
Proof. intros Hlen. exact Hlen. Qed.

Lemma shown_strip cs w :
  length (np_buf (np w)) = number_of_leds ->
  length (np_buf (np (shown cs w))) = number_of_leds.
Proof.
  revert w. induction cs as [| c cs IH]; intros w Hlen; [exact Hlen |].
  apply IH, show_strip.
Qed.

Lemma shown_fields cs w :
  state (shown cs w) = state w /\
  motiontimes (shown cs w) = motiontimes w /\
  ticks_read (shown cs w) = ticks_read w /\
  slept_ms (shown cs w) = slept_ms w /\
  np_frames (np (shown cs w)) = np_frames (np w) ++ frames_of cs.
Proof.
  revert w. induction cs as [| c cs IH]; intros w.
  - cbn. rewrite app_nil_r. auto.
  - destruct (IH (show c w)) as (Hst & Hd & Hk & Hsl & Hfr).
    change (shown (c :: cs) w) with (shown cs (show c w)).
    rewrite Hst, Hd, Hk, Hsl, Hfr.
    cbn [show set_np state motiontimes ticks_read slept_ms np np_frames
         frames_of map].
    rewrite <- app_assoc. auto.
Qed.

(** X14. [fill_all_leds(r, g, b, w)] on the strip of 90 pixels returns,
    sets every pixel to the colour given, sends exactly one frame, the
    whole buffer, and touches neither [state] nor the window. *)
Theorem fill_all_leds_fills_and_writes_once r g b wh (w : world) :
  length (np_buf (np w)) = number_of_leds ->
  exists w',
    fill_all_leds r g b wh w = (Returned tt, w') /\
    np_buf (np w') = repeat (r, g, b, wh) 90 /\
    np_frames (np w') = np_frames (np w) ++ [repeat (r, g, b, wh) 90] /\
    state w' = state w /\ motiontimes w' = motiontimes w /\
    ticks_read w' = ticks_read w /\ slept_ms w' = slept_ms w.
Proof.
  intros Hlen. exists (show (r, g, b, wh) w).
  split; [apply fill_all_leds_result, Hlen |].
  repeat split.
Qed.

Lemma show_state c w : state (show c w) = state w.
Proof. reflexivity. Qed.
Lemma show_motiontimes c w : motiontimes (show c w) = motiontimes w.
Proof. reflexivity. Qed.
Lemma show_ticks_read c w : ticks_read (show c w) = ticks_read w.
Proof. reflexivity. Qed.
Lemma show_buf c w : np_buf (np (show c w)) = repeat c number_of_leds.
Proof. reflexivity. Qed.
Lemma show_frames c w :
  np_frames (np (show c w)) = np_frames (np w) ++ frames_of [c].
Proof. reflexivity. Qed.
Lemma asleep_state ms w : state (asleep ms w) = state w.
Proof. reflexivity. Qed.
Lemma asleep_motiontimes ms w : motiontimes (asleep ms w) = motiontimes w.
Proof. reflexivity. Qed.
Lemma asleep_ticks_read ms w : ticks_read (asleep ms w) = ticks_read w.
Proof. reflexivity. Qed.
Lemma asleep_np ms w : np (asleep ms w) = np w.
Proof. reflexivity. Qed.
Lemma shown_state cs w : state (shown cs w) = state w.
Proof. apply shown_fields. Qed.
Lemma shown_motiontimes cs w : motiontimes (shown cs w) = motiontimes w.
Proof. apply shown_fields. Qed.
Lemma shown_ticks_read cs w : ticks_read (shown cs w) = ticks_read w.
Proof. apply shown_fields. Qed.
Lemma shown_frames cs w :
  np_frames (np (shown cs w)) = np_frames (np w) ++ frames_of cs.
Proof. apply shown_fields. Qed.
Lemma frames_of_app cs1 cs2 :
  frames_of cs1 ++ frames_of cs2 = frames_of (cs1 ++ cs2).
Proof. unfold frames_of. rewrite map_app. reflexivity. Qed.
Lemma frames_app_frames_of (fr : list (list color)) cs1 cs2 :
  (fr ++ frames_of cs1) ++ frames_of cs2 = fr ++ frames_of (cs1 ++ cs2).
Proof. rewrite <- app_assoc, frames_of_app. reflexivity. Qed.

Create Rewrite HintDb world_fields.
#[local] Hint Rewrite show_state show_motiontimes show_ticks_read show_buf
  show_frames asleep_state asleep_motiontimes asleep_ticks_read asleep_np
  shown_state shown_motiontimes shown_ticks_read shown_frames
  frames_app_frames_of : world_fields.

Section BootProperties.

Variable wifi_isconnected : nat -> bool.
Variable connect_fails : nat -> bool.

Lemma wait_for_wifi_result k : forall a fuel (w : world),
  (forall i, (i < k)%nat -> wifi_isconnected (a + i) = false) ->
  wifi_isconnected (a + k) = true ->
  (k < fuel)%nat ->
  wait_for_wifi wifi_isconnected fuel a w =
  (Returned tt, asleep (100 * Z.of_nat k) w).
Proof.
  induction k as [| k IH]; intros a fuel w Hno Hyes Hfuel;
    (destruct fuel as [| fuel]; [lia |]); cbn [wait_for_wifi].
  - rewrite Nat.add_0_r in Hyes. rewrite Hyes.
    unfold ret, asleep. destruct w. cbn. do 2 f_equal. lia.
  - pose proof (Hno O ltac:(lia)) as H0. rewrite Nat.add_0_r in H0.
    rewrite H0. unfold bind, time_sleep. cbn [sleep_ms].
    rewrite (IH (S a) fuel).
    + unfold asleep. cbn. do 2 f_equal. lia.
    + intros i Hi. replace (S a + i)%nat with (a + S i)%nat by lia.
      apply Hno. lia.
    + replace (S a + k)%nat with (a + S k)%nat by lia. exact Hyes.
    + lia.
Qed.

Lemma connect_attempts_result n : forall a j (w : world),
  length (np_buf (np w)) = number_of_leds ->
  (j <= n)%nat ->
  (forall i, (i < j)%nat -> connect_fails (a + i) = true) ->
  ((j < n)%nat -> connect_fails (a + j) = false) ->
  connect_attempts connect_fails (seq a n) w =
  (Returned tt, shown (repeat (255, 0, 0, 0) j) w).
Proof.
  induction n as [| n IH]; intros a j w Hlen Hj Hfail Hok.
  - assert (j = O) as -> by lia. reflexivity.
  - cbn [seq connect_attempts]. destruct j as [| j].
    + rewrite Nat.add_0_r in Hok. rewrite Hok by lia. reflexivity.
    + pose proof (Hfail O ltac:(lia)) as H0. rewrite Nat.add_0_r in H0.
      rewrite H0. unfold bind. rewrite fill_all_leds_result by exact Hlen.
      rewrite (IH (S a) j).
      * reflexivity.
      * apply show_strip.
      * lia.
      * intros i Hi. replace (S a + i)%nat with (a + S i)%nat by lia.
        apply Hfail. lia.
      * intros Hlt. replace (S a + j)%nat with (a + S j)%nat by lia.
        apply Hok. lia.
Qed.

(** X15. The wait for the network ends at the first call of
    [wifi.isconnected()] that answers true: it has then slept 0.1 s once
    per earlier call and changed nothing else, the strip included. *)
Theorem wait_for_wifi_ends_at_first_connected k fuel (w : world) :
  (forall i, (i < k)%nat -> wifi_isconnected i = false) ->
  wifi_isconnected k = true ->
  (k < fuel)%nat ->
  exists w',
    wait_for_wifi wifi_isconnected fuel 0 w = (Returned tt, w') /\
    slept_ms w' = slept_ms w + 100 * Z.of_nat k /\
    np w' = np w /\ state w' = state w /\
    motiontimes w' = motiontimes w /\ ticks_read w' = ticks_read w.
Proof.
  intros Hno Hyes Hfuel. exists (asleep (100 * Z.of_nat k) w).
  split; [| repeat split].
  apply wait_for_wifi_result; [exact Hno | exact Hyes | exact Hfuel].
Qed.

Lemma wait_for_wifi_unanswered fuel : forall a (w : world),
  (forall i, (i < fuel)%nat -> wifi_isconnected (a + i) = false) ->
  (wait_for_wifi wifi_isconnected fuel a w).1 = OutOfFuel.
Proof.
  induction fuel as [| fuel IH]; intros a w Hno; [reflexivity |].
  cbn [wait_for_wifi].
  pose proof (Hno O ltac:(lia)) as H0. rewrite Nat.add_0_r in H0.
  rewrite H0. unfold bind, time_sleep. cbn [sleep_ms].
  apply IH. intros i Hi. replace (S a + i)%nat with (a + S i)%nat by lia.
  apply Hno. lia.
Qed.

(** X16. While the network does not answer, the wait never ends: if the
    first [fuel] calls of [wifi.isconnected()] all answer false, the loop
    is still running after [fuel] turns, whatever [fuel] is. *)
Theorem wait_for_wifi_waits_while_unconnected fuel (w : world) :
  (forall i, (i < fuel)%nat -> wifi_isconnected i = false) ->
  (wait_for_wifi wifi_isconnected fuel 0 w).1 = OutOfFuel.
Proof. intros Hno. apply wait_for_wifi_unanswered. exact Hno. Qed.

(** X17. The attempts to reach the broker stop at the first
    [client.connect()] that returns; every attempt that raised [OSError]
    before it has filled the strip red and written one frame, and nothing
    else has changed.  No more than 100 attempts are made. *)
Theorem connect_to_broker_stops_at_first_success j (w : world) :
  length (np_buf (np w)) = number_of_leds ->
  (j <= 100)%nat ->
  (forall i, (i < j)%nat -> connect_fails i = true) ->
  ((j < 100)%nat -> connect_fails j = false) ->
  exists w',
    connect_to_broker connect_fails w = (Returned tt, w') /\
    np_frames (np w') =
      np_frames (np w) ++ frames_of (repeat (255, 0, 0, 0) j) /\
    state w' = state w /\ motiontimes w' = motiontimes w /\
    ticks_read w' = ticks_read w /\ slept_ms w' = slept_ms w.
Proof.
  intros Hlen Hj Hfail Hok. exists (shown (repeat (255, 0, 0, 0) j) w).
  split.
  - apply (connect_attempts_result 100 0 j w Hlen Hj Hfail Hok).
  - destruct (shown_fields (repeat (255, 0, 0, 0) j) w)
      as (Hst & Hd & Hk & Hsl & Hfr).
    auto.
Qed.

(** X18. When [client.connect()] raises [OSError] at each of the 100
    attempts, the program does not fail: the loop ends normally after 100
    red frames and the start-up sequence goes on without a connection. *)
Theorem connect_to_broker_gives_up_silently (w : world) :
  length (np_buf (np w)) = number_of_leds ->
  (forall i, (i < 100)%nat -> connect_fails i = true) ->
  exists w',
    connect_to_broker connect_fails w = (Returned tt, w') /\
    np_frames (np w') =
      np_frames (np w) ++ repeat (repeat (255, 0, 0, 0) 90) 100.
Proof.
  intros Hlen Hfail. exists (shown (repeat (255, 0, 0, 0) 100) w).
  split.
  - apply (connect_attempts_result 100 0 100 w Hlen); [lia | exact Hfail | lia].
  - destruct (shown_fields (repeat (255, 0, 0, 0) 100) w)
      as (_ & _ & _ & _ & Hfr).
    rewrite Hfr. reflexivity.
Qed.

Lemma time_sleep_result ms (w : world) :
  time_sleep ms w = (Returned tt, asleep ms w).
Proof. reflexivity. Qed.

Ltac strip_ok :=
  repeat first [apply asleep_strip | apply show_strip | apply shown_strip];
  assumption.

Ltac run_fill :=
  rewrite fill_all_leds_result by strip_ok; cbv beta iota.

Ltac run_sleep :=
  rewrite time_sleep_result; cbv beta iota.

(** The world the start-up sequence ends in. *)
Lemma boot_result k j fuel (w : world) :
  length (np_buf (np w)) = number_of_leds ->
  (forall i, (i < k)%nat -> wifi_isconnected i = false) ->
  wifi_isconnected k = true ->
  (k < fuel)%nat ->
  (j <= 100)%nat ->
  (forall i, (i < j)%nat -> connect_fails i = true) ->
  ((j < 100)%nat -> connect_fails j = false) ->
  exists w',
    boot wifi_isconnected connect_fails fuel w = (Returned tt, w') /\
    np_buf (np w') = repeat (0, 0, 0, 0) number_of_leds /\
    np_frames (np w') =
      np_frames (np w) ++
      frames_of ([(0, 0, 0, 0); (0, 0, 255, 0); (0, 255, 0, 0);
                  (255, 150, 0, 0)] ++
                 repeat (255, 0, 0, 0) j ++
                 [(0, 0, 0, 0); (0, 0, 0, 255); (0, 0, 0, 0); (0, 0, 0, 255);
                  (0, 0, 0, 0); (0, 0, 0, 255); (0, 0, 0, 0)]) /\
    state w' = state w /\ motiontimes w' = motiontimes w /\
    ticks_read w' = ticks_read w.
Proof.
  intros Hlen Hno Hyes Hfuel Hj Hfail Hok.
  unfold boot, blink. cbn [seq for_range]. unfold bind, ret.
  run_fill. run_sleep. run_fill.
  rewrite (wait_for_wifi_result k 0 fuel _ Hno Hyes Hfuel). cbv beta iota.
  run_fill. run_sleep. run_fill. run_sleep.
  unfold connect_to_broker.
  match goal with
  | |- context [connect_attempts connect_fails (seq 0 100) ?w0] =>
      rewrite (connect_attempts_result 100 0 j w0 ltac:(strip_ok)
                 Hj Hfail Hok)
  end.
  cbv beta iota.
  do 3 (run_fill; run_sleep; run_fill; run_sleep).
  run_fill.
  eexists. split; [reflexivity |].
  autorewrite with world_fields.
  split; [reflexivity |]. split; [| auto].
  cbn [app]. reflexivity.
Qed.

(** X19. Once the network answers, the start-up sequence returns with
    the strip dark, every pixel (0,0,0,0).  It has shown, one frame each:
    black, blue, green, yellow, red once per failed attempt on the broker,
    then black and white three times and black again.  [state], the
    window and the counter are as the module created them. *)
Theorem boot_shows_indicators_and_ends_dark k j fuel (w : world) :
  length (np_buf (np w)) = number_of_leds ->
  (forall i, (i < k)%nat -> wifi_isconnected i = false) ->
  wifi_isconnected k = true ->
  (k < fuel)%nat ->
  (j <= 100)%nat ->
  (forall i, (i < j)%nat -> connect_fails i = true) ->
  ((j < 100)%nat -> connect_fails j = false) ->
  exists w',
    boot wifi_isconnected connect_fails fuel w = (Returned tt, w') /\
    np_buf (np w') = repeat (0, 0, 0, 0) number_of_leds /\
    np_frames (np w') =
      np_frames (np w) ++
      frames_of ([(0, 0, 0, 0); (0, 0, 255, 0); (0, 255, 0, 0);
                  (255, 150, 0, 0)] ++
                 repeat (255, 0, 0, 0) j ++
                 [(0, 0, 0, 0); (0, 0, 0, 255); (0, 0, 0, 0); (0, 0, 0, 255);
                  (0, 0, 0, 0); (0, 0, 0, 255); (0, 0, 0, 0)]) /\
    state w' = state w /\ motiontimes w' = motiontimes w /\
    ticks_read w' = ticks_read w.
Proof. apply boot_result. Qed.

Section Idle.

Context `{Runtime}.
Variable ticks : nat -> Z.



End Idle.

End BootProperties.

(** * The further properties on concrete runs *)

Lemma callback_changes_nothing_unless_accepted_witness :
  @accepted ascii_runtime "dinky/motion" "on" = None /\
  (@mqtt_message_callback ascii_runtime (steady 1000)
     "dinky/motion" "on" world0).2 = world0.
Proof.
  split; [reflexivity |].
  apply (@callback_changes_nothing_unless_accepted ascii_runtime
           (steady 1000) "dinky/motion" "on" world0).
  reflexivity.
Defined.

Lemma topic_outside_prefix_is_ignored_witness :
  @mqtt_message_callback ascii_runtime (steady 1000)
    "other/topic" "abc" world_full = (Returned tt, world_full).
Proof.
  apply (@topic_outside_prefix_is_ignored ascii_runtime (steady 1000)
           "other/topic" "abc" "other/topic" "abc" world_full);
    reflexivity.
Defined.

Lemma unknown_channel_integer_payload_is_ignored_witness :
  @mqtt_message_callback ascii_runtime (steady 1000)
    "dinky/other" " 7 " world_full = (Returned tt, world_full).
Proof.
  apply (@unknown_channel_integer_payload_is_ignored ascii_runtime
           (steady 1000) "dinky/other" " 7 " "dinky/other" " 7 " 7
           world_full).
  - reflexivity.
  - reflexivity.
  - reflexivity.
  - apply (bool_decide_unpack _). vm_compute. exact I.
  - reflexivity.
Defined.

Lemma only_dinky_motion_changes_anything_witness :
  (@mqtt_message_callback ascii_runtime (steady 1000)
     "dinky/motions" "1" world0).2 = world0.
Proof.
  apply (@only_dinky_motion_changes_anything ascii_runtime (steady 1000)
           "dinky/motions" "1" world0).
  simpl. discriminate.
Defined.

Lemma dispatch_reads_counter_at_most_61_times_witness :
  (ticks_read (@mqtt_message_callback ascii_runtime (steady 1060)
                 "dinky/motion" "1" world_full).2
   <= ticks_read world_full + 61)%nat.
Proof.
  apply (@dispatch_reads_counter_at_most_61_times ascii_runtime (steady 1060)
           "dinky/motion" "1" world_full).
  apply Nat.leb_le. vm_compute. reflexivity.
Defined.

Lemma accepted_dispatch_effects_witness :
  state (@mqtt_message_callback ascii_runtime (steady 70000)
           "dinky/motion" "1" world_stale).2
  = <["motion" := 1]> (state world_stale).
Proof.
  apply (@accepted_dispatch_effects ascii_runtime (steady 70000)
           "dinky/motion" "1" "motion" 1 world_stale).
  - reflexivity.
  - simpl. unfold deque_maxlen. lia.
Defined.

Lemma prune_drops_leading_stale_entries_witness :
  motiontimes (@mqtt_message_callback ascii_runtime (steady 70000)
                 "dinky/motion" "1" world_stale).2
  = drop_stale 70000 [1000; 2000; 30000; 70000] /\
  drop_stale 70000 [1000; 2000; 30000; 70000] = [30000; 70000].
Proof.
  split; [| reflexivity].
  apply (@prune_drops_leading_stale_entries ascii_runtime (steady 70000)
           "dinky/motion" "1" "motion" 1 70000 world_stale).
  - reflexivity.
  - simpl. unfold deque_maxlen. lia.
  - intros j. reflexivity.
Defined.

Lemma prune_twice_is_prune_once_witness :
  prune (steady 70000) world_stale
  = (Returned tt, (prune (steady 70000) world_stale).2) /\
  exists w2,
    prune (steady 70000) (prune (steady 70000) world_stale).2
    = (Returned tt, w2) /\
    motiontimes w2 = motiontimes (prune (steady 70000) world_stale).2.
Proof.
  split; [reflexivity |].
  apply (prune_twice_is_prune_once (steady 70000) 70000 world_stale).
  - simpl. unfold deque_maxlen. lia.
  - intros j. reflexivity.
  - reflexivity.
Defined.

Lemma steady_is_monotone t : monotone (steady t).
Proof. intros i j _. unfold steady. lia. Qed.

Lemma window_stays_recent_without_wrap_witness :
  window_recent (steady 1000)
    (@dispatch_all ascii_runtime (steady 1000) two_motions world0).2.2.
Proof.
  apply (@window_stays_recent_without_wrap ascii_runtime (steady 1000)
           two_motions world0).
  - apply steady_is_monotone.
  - apply wf_world0.
  - split; constructor.
  - constructor.
Defined.

Lemma callback_keeps_state_keys_witness :
  dom (state (@mqtt_message_callback ascii_runtime (steady 1000)
                "dinky/motion" "1" world0).2) = dom (state world0).
Proof.
  apply (@callback_keeps_state_keys ascii_runtime (steady 1000)
           "dinky/motion" "1" world0).
  intros c Hc. apply list_elem_of_singleton in Hc as ->.
  eexists. reflexivity.
Defined.

Lemma main_loop_renders_every_turn_witness :
  length (np_frames (np (@main_loop ascii_runtime (steady 1000)
    [Some ("dinky/motion", "1"); None; Some ("dinky/motion", "0")]
    world0).2)) = 3%nat.
Proof.
  apply (@main_loop_renders_every_turn ascii_runtime (steady 1000)
           [Some ("dinky/motion", "1"); None; Some ("dinky/motion", "0")]
           world0).
  - apply wf_world0.
  - discriminate.
  - vm_compute. reflexivity.
Defined.

Lemma main_loop_keeps_invariant_witness :
  wf (@main_loop ascii_runtime (steady 1000)
        [Some ("dinky/motion", "1"); Some ("dinky/other", "abc"); None]
        world0).2.
Proof.
  apply (@main_loop_keeps_invariant ascii_runtime (steady 1000)
           [Some ("dinky/motion", "1"); Some ("dinky/other", "abc"); None]
           world0).
  apply wf_world0.
Defined.

Lemma fill_all_leds_fills_and_writes_once_witness :
  exists w',
    fill_all_leds 0 0 255 0 world0 = (Returned tt, w') /\
    np_buf (np w') = repeat (0, 0, 255, 0) 90 /\
    np_frames (np w') = np_frames (np world0) ++ [repeat (0, 0, 255, 0) 90] /\
    state w' = state world0 /\ motiontimes w' = motiontimes world0 /\
    ticks_read w' = ticks_read world0 /\ slept_ms w' = slept_ms world0.
Proof.
  apply (fill_all_leds_fills_and_writes_once 0 0 255 0 world0).
  reflexivity.
Defined.

Lemma two_calls_unanswered (f : nat -> bool) (b : bool) :
  f 0%nat = b -> f 1%nat = b -> forall i, (i < 2)%nat -> f i = b.
Proof. intros H0 H1 [| [| i]] Hi; [exact H0 | exact H1 | lia]. Qed.

Lemma wait_for_wifi_ends_at_first_connected_witness :
  exists w',
    wait_for_wifi wifi_third_call 5 0 world0 = (Returned tt, w') /\
    slept_ms w' = slept_ms world0 + 100 * Z.of_nat 2 /\
    np w' = np world0 /\ state w' = state world0 /\
    motiontimes w' = motiontimes world0 /\ ticks_read w' = ticks_read world0.
Proof.
  apply (wait_for_wifi_ends_at_first_connected wifi_third_call 2 5 world0).
  - apply two_calls_unanswered; reflexivity.
  - reflexivity.
  - lia.
Defined.

Lemma wait_for_wifi_waits_while_unconnected_witness :
  (wait_for_wifi no_network 7 0 world0).1 = OutOfFuel.
Proof.
  apply (wait_for_wifi_waits_while_unconnected no_network 7 world0).
  intros i _. reflexivity.
Defined.

Lemma connect_to_broker_stops_at_first_success_witness :
  exists w',
    connect_to_broker broker_third_attempt world0 = (Returned tt, w') /\
    np_frames (np w') =
      np_frames (np world0) ++ frames_of (repeat (255, 0, 0, 0) 2) /\
    state w' = state world0 /\ motiontimes w' = motiontimes world0 /\
    ticks_read w' = ticks_read world0 /\ slept_ms w' = slept_ms world0.
Proof.
  apply (connect_to_broker_stops_at_first_success broker_third_attempt 2
           world0).
  - reflexivity.
  - lia.
  - apply two_calls_unanswered; reflexivity.
  - intros _. reflexivity.
Defined.

Lemma connect_to_broker_gives_up_silently_witness :
  exists w',
    connect_to_broker broker_down world0 = (Returned tt, w') /\
    np_frames (np w') =
      np_frames (np world0) ++ repeat (repeat (255, 0, 0, 0) 90) 100.
Proof.
  apply (connect_to_broker_gives_up_silently broker_down world0).
  - reflexivity.
  - intros i _. reflexivity.
Defined.

Lemma boot_shows_indicators_and_ends_dark_witness :
  exists w',
    boot wifi_third_call broker_third_attempt 5 (power_on strip_at_start)
    = (Returned tt, w') /\
    np_buf (np w') = repeat (0, 0, 0, 0) number_of_leds /\
    np_frames (np w') =
      np_frames (np (power_on strip_at_start)) ++
      frames_of ([(0, 0, 0, 0); (0, 0, 255, 0); (0, 255, 0, 0);
                  (255, 150, 0, 0)] ++
                 repeat (255, 0, 0, 0) 2 ++
                 [(0, 0, 0, 0); (0, 0, 0, 255); (0, 0, 0, 0); (0, 0, 0, 255);
                  (0, 0, 0, 0); (0, 0, 0, 255); (0, 0, 0, 0)]) /\
    state w' = state (power_on strip_at_start) /\
    motiontimes w' = motiontimes (power_on strip_at_start) /\
    ticks_read w' = ticks_read (power_on strip_at_start).
Proof.
  apply (boot_shows_indicators_and_ends_dark wifi_third_call
           broker_third_attempt 2 2 5 (power_on strip_at_start)).
  - reflexivity.
  - apply two_calls_unanswered; reflexivity.
  - reflexivity.
  - lia.
  - lia.
  - apply two_calls_unanswered; reflexivity.
  - intros _. reflexivity.
Defined.

